(** * ThreadSafeQueue: a blocking FIFO queue guarded by a mutex and a
      condition variable (queue.go)

    The Go source keeps a slice [queue], a [sync.Mutex] [mu] and a
    [*sync.Cond] [cond] built on that mutex.  Every method body is a short
    straight-line sequence of statements, except for the waiting loop of
    [Dequeue].  The embedding below keeps that shape: each method is a
    transition function from a program point (one per source statement) and
    the shared queue to the next program point, and goroutines are
    interleaved statement by statement by a scheduler. *)

From Stdlib Require Import ZArith List Bool Lia String.
From stdpp Require Import base list.
Import ListNotations.

Set Default Proof Using "Type".

(** Goroutine identifiers. *)
Abbreviation tid := nat.

(** Membership test on goroutine identifiers. *)
Definition inb (t : tid) (l : list tid) : bool := existsb (Nat.eqb t) l.

(** What one statement of a method body can do. *)
Inductive outcome (PC Q E : Type) : Type :=
| Goto (pc : PC) (q : Q)   (* control moves to the next statement *)
| Return (e : E) (q : Q)   (* the method returns to its caller *)
| Blocked                  (* the goroutine cannot run now *)
| Panic.                   (* run-time panic or fatal error *)
Arguments Goto {PC Q E} pc q.
Arguments Return {PC Q E} e q.
Arguments Blocked {PC Q E}.
Arguments Panic {PC Q E}.

Section Queue.

(** The element type: [interface{}] in the source, so any value at all. *)
Context {V : Type}.

(** ** The data structure *)

(** [queue []interface{}], [mu sync.Mutex], [cond *sync.Cond].
    A [sync.Mutex] is a locked/unlocked flag without an owner.  The
    condition variable is its list of waiters: the goroutines suspended in
    [Wait], oldest first (the runtime's notify list). *)
Record ThreadSafeQueue : Type := mkQueue {
  queue : list V;
  mu : bool;
  cond : list tid;
}.

(** [q := &ThreadSafeQueue{}; q.cond = sync.NewCond(&q.mu); return q]:
    a nil slice, an unlocked mutex and a condition variable nobody waits
    on. *)
Definition NewThreadSafeQueue : ThreadSafeQueue := mkQueue [] false [].

(** ** The [sync] primitives the methods call *)

(** [q.mu.Lock()]: waits while the mutex is locked. *)
Definition Lock (q : ThreadSafeQueue) : option ThreadSafeQueue :=
  if mu q then None else Some (mkQueue (queue q) true (cond q)).

(** [q.mu.Unlock()]: unlocking an unlocked mutex is a fatal error. *)
Definition Unlock (q : ThreadSafeQueue) : option ThreadSafeQueue :=
  if mu q then Some (mkQueue (queue q) false (cond q)) else None.

(** [q.cond.Signal()]: wakes one goroutine waiting on the condition
    variable, if there is any; the runtime picks the oldest waiter. *)
Definition Signal (q : ThreadSafeQueue) : ThreadSafeQueue :=
  mkQueue (queue q) (mu q) (tail (cond q)).

(** [q.cond.Wait()], first part: the caller joins the waiters and unlocks
    the mutex. *)
Definition Wait_suspend (t : tid) (q : ThreadSafeQueue) : option ThreadSafeQueue :=
  Unlock (mkQueue (queue q) (mu q) (cond q ++ [t])).

(** [q.cond.Wait()], second part: the caller stays suspended until a
    [Signal] has taken it off the waiters. *)
Definition Wait_notified (t : tid) (q : ThreadSafeQueue) : bool :=
  negb (inb t (cond q)).

(** [q.cond.Wait()], last part: the mutex is locked again before [Wait]
    returns; this is [Lock]. *)

(** ** Completed calls *)

(** A method call that has returned, with what it returned. *)
Inductive event : Type :=
| EvEnqueue (item : V)              (* Enqueue(item) returned *)
| EvDequeue (item : V) (ok : bool)  (* Dequeue() returned (item, ok) *)
| EvIsEmpty (b : bool)              (* IsEmpty() returned b *)
| EvSize (n : Z).                   (* Size() returned n *)

(** ** Enqueue *)

(** Program points of [Enqueue], one per statement (lines 29 to 32). *)
Inductive EnqueuePC : Type :=
| EnqLock      (* q.mu.Lock() *)
| EnqAppend    (* q.queue = append(q.queue, item) *)
| EnqSignal    (* q.cond.Signal() *)
| EnqUnlock.   (* q.mu.Unlock() *)

Definition Enqueue (item : V) (pc : EnqueuePC) (q : ThreadSafeQueue)
  : outcome EnqueuePC ThreadSafeQueue event :=
  match pc with
  | EnqLock =>
      match Lock q with
      | Some q' => Goto EnqAppend q'
      | None => Blocked
      end
  | EnqAppend => Goto EnqSignal (mkQueue (queue q ++ [item]) (mu q) (cond q))
  | EnqSignal => Goto EnqUnlock (Signal q)
  | EnqUnlock =>
      match Unlock q with
      | Some q' => Return (EvEnqueue item) q'
      | None => Panic
      end
  end.

(** ** Dequeue *)

(** Program points of [Dequeue] (lines 41 to 48).  [q.cond.Wait()] takes
    three of them; [defer q.mu.Unlock()] runs when the function returns,
    after the result [(item, true)] has been fixed. *)
Inductive DequeuePC : Type :=
| DeqLock                 (* q.mu.Lock() *)
| DeqLoop                 (* for len(q.queue) == 0 *)
| DeqWait                 (* q.cond.Wait(): join the waiters, unlock *)
| DeqParked               (* q.cond.Wait(): suspended *)
| DeqRelock               (* q.cond.Wait(): lock again *)
| DeqHead                 (* item := q.queue[0] *)
| DeqSlice (item : V)     (* q.queue = q.queue[1:] *)
| DeqReturn (item : V).   (* return item, true; deferred q.mu.Unlock() *)

Definition Dequeue (t : tid) (pc : DequeuePC) (q : ThreadSafeQueue)
  : outcome DequeuePC ThreadSafeQueue event :=
  match pc with
  | DeqLock =>
      match Lock q with
      | Some q' => Goto DeqLoop q'
      | None => Blocked
      end
  | DeqLoop =>
      if (length (queue q) =? 0)%nat then Goto DeqWait q else Goto DeqHead q
  | DeqWait =>
      match Wait_suspend t q with
      | Some q' => Goto DeqParked q'
      | None => Panic
      end
  | DeqParked =>
      if Wait_notified t q then Goto DeqRelock q else Blocked
  | DeqRelock =>
      match Lock q with
      | Some q' => Goto DeqLoop q'
      | None => Blocked
      end
  | DeqHead =>
      match queue q with
      | item :: _ => Goto (DeqSlice item) q
      | [] => Panic   (* index out of range *)
      end
  | DeqSlice item =>
      match queue q with
      | _ :: rest => Goto (DeqReturn item) (mkQueue rest (mu q) (cond q))
      | [] => Panic   (* slice bounds out of range *)
      end
  | DeqReturn item =>
      match Unlock q with
      | Some q' => Return (EvDequeue item true) q'
      | None => Panic
      end
  end.

(** ** IsEmpty *)

(** Program points of [IsEmpty] (lines 54 to 56). *)
Inductive IsEmptyPC : Type :=
| EmpLock                 (* q.mu.Lock() *)
| EmpLen                  (* return len(q.queue) == 0 *)
| EmpReturn (b : bool).   (* deferred q.mu.Unlock() *)

Definition IsEmpty (pc : IsEmptyPC) (q : ThreadSafeQueue)
  : outcome IsEmptyPC ThreadSafeQueue event :=
  match pc with
  | EmpLock =>
      match Lock q with
      | Some q' => Goto EmpLen q'
      | None => Blocked
      end
  | EmpLen => Goto (EmpReturn (length (queue q) =? 0)%nat) q
  | EmpReturn b =>
      match Unlock q with
      | Some q' => Return (EvIsEmpty b) q'
      | None => Panic
      end
  end.

(** ** Size *)

(** Program points of [Size] (lines 62 to 64).  The result is a Go [int];
    the length of a slice always fits in one. *)
Inductive SizePC : Type :=
| SizeLock              (* q.mu.Lock() *)
| SizeLen               (* return len(q.queue) *)
| SizeReturn (n : Z).   (* deferred q.mu.Unlock() *)

Definition Size (pc : SizePC) (q : ThreadSafeQueue)
  : outcome SizePC ThreadSafeQueue event :=
  match pc with
  | SizeLock =>
      match Lock q with
      | Some q' => Goto SizeLen q'
      | None => Blocked
      end
  | SizeLen => Goto (SizeReturn (Z.of_nat (length (queue q)))) q
  | SizeReturn n =>
      match Unlock q with
      | Some q' => Return (EvSize n) q'
      | None => Panic
      end
  end.

(** ** Goroutines *)

(** The method a goroutine is executing, and where in it. *)
Inductive frame : Type :=
| InEnqueue (item : V) (pc : EnqueuePC)
| InDequeue (pc : DequeuePC)
| InIsEmpty (pc : IsEmptyPC)
| InSize (pc : SizePC).

Definition lift {PC : Type} (k : PC -> frame)
  (o : outcome PC ThreadSafeQueue event) : outcome frame ThreadSafeQueue event :=
  match o with
  | Goto pc q => Goto (k pc) q
  | Return e q => Return e q
  | Blocked => Blocked
  | Panic => Panic
  end.

(** One statement of goroutine [t]. *)
Definition thread_step (t : tid) (f : frame) (q : ThreadSafeQueue)
  : outcome frame ThreadSafeQueue event :=
  match f with
  | InEnqueue item pc => lift (InEnqueue item) (Enqueue item pc q)
  | InDequeue pc => lift InDequeue (Dequeue t pc q)
  | InIsEmpty pc => lift InIsEmpty (IsEmpty pc q)
  | InSize pc => lift InSize (Size pc q)
  end.

(** A goroutine is between calls or inside one. *)
Inductive tstate : Type :=
| Idle
| Running (f : frame).

(** The calls a goroutine can make on the queue. *)
Inductive call : Type :=
| CallEnqueue (item : V)
| CallDequeue
| CallIsEmpty
| CallSize.

Definition entry (c : call) : frame :=
  match c with
  | CallEnqueue item => InEnqueue item EnqLock
  | CallDequeue => InDequeue DeqLock
  | CallIsEmpty => InIsEmpty EmpLock
  | CallSize => InSize SizeLock
  end.

(** The whole program: one shared queue and the goroutines using it. *)
Record config : Type := mkConfig {
  shared : ThreadSafeQueue;
  pool : list tstate;
}.

(** A fresh queue shared by [n] goroutines that have not called it yet. *)
Definition init (n : nat) : config :=
  mkConfig NewThreadSafeQueue (replicate n Idle).

(** What the scheduler can do: let an idle goroutine start a call, or let
    a goroutine inside a call run its next statement. *)
Inductive action : Type :=
| Invoke (t : tid) (c : call)
| Step (t : tid).

(** One scheduler action, with the calls it completes (goroutine and
    result); [None] when the action is not possible (the goroutine is
    blocked, has crashed, or is in the wrong state). *)
Definition exec (cfg : config) (a : action)
  : option (config * list (tid * event)) :=
  match a with
  | Invoke t c =>
      match pool cfg !! t with
      | Some Idle =>
          Some (mkConfig (shared cfg) (<[t := Running (entry c)]> (pool cfg)), [])
      | _ => None
      end
  | Step t =>
      match pool cfg !! t with
      | Some (Running f) =>
          match thread_step t f (shared cfg) with
          | Goto f' q' => Some (mkConfig q' (<[t := Running f']> (pool cfg)), [])
          | Return e q' => Some (mkConfig q' (<[t := Idle]> (pool cfg)), [(t, e)])
          | Blocked | Panic => None
          end
      | _ => None
      end
  end.

(** A schedule: a sequence of scheduler actions, extending the history [h]
    of completed calls (oldest first). *)
Fixpoint run (cfg : config) (h : list (tid * event)) (acts : list action)
  : option (config * list (tid * event)) :=
  match acts with
  | [] => Some (cfg, h)
  | a :: acts' =>
      match exec cfg a with
      | Some (cfg', evs) => run cfg' (h ++ evs) acts'
      | None => None
      end
  end.

(** ** Calls that run without interleaving *)

(** Result of letting one goroutine run a call on its own. *)
Inductive solo : Type :=
| Done (e : event) (cfg : config)   (* the call returned *)
| Stuck (cfg : config)              (* the goroutine is blocked in [cfg] *)
| Crashed                           (* the goroutine panicked *)
| Invalid                           (* the goroutine cannot make a call *)
| OutOfFuel.                        (* more statements than allowed *)

(** Goroutine [t] runs alone until its call returns or it cannot go on. *)
Fixpoint finish (fuel : nat) (t : tid) (cfg : config) : solo :=
  match pool cfg !! t with
  | Some (Running f) =>
      match thread_step t f (shared cfg) with
      | Goto f' q' =>
          match fuel with
          | O => OutOfFuel
          | S fuel' => finish fuel' t (mkConfig q' (<[t := Running f']> (pool cfg)))
          end
      | Return e q' => Done e (mkConfig q' (<[t := Idle]> (pool cfg)))
      | Blocked => Stuck cfg
      | Panic => Crashed
      end
  | _ => Invalid
  end.

(** No method runs more than eight statements without waiting. *)
Definition do_call (t : tid) (c : call) (cfg : config) : solo :=
  match pool cfg !! t with
  | Some Idle => finish 8 t (mkConfig (shared cfg) (<[t := Running (entry c)]> (pool cfg)))
  | _ => Invalid
  end.

(** Calls made one after the other, each by the goroutine named with it;
    the results in call order, and the configuration at the end.  [None]
    as soon as one call does not return. *)
Fixpoint do_calls (cfg : config) (cs : list (tid * call))
  : option (list event * config) :=
  match cs with
  | [] => Some ([], cfg)
  | (t, c) :: cs' =>
      match do_call t c cfg with
      | Done e cfg' =>
          match do_calls cfg' cs' with
          | Some (es, cfg'') => Some (e :: es, cfg'')
          | None => None
          end
      | _ => None
      end
  end.

(** ** Bookkeeping used to state the properties *)

(** No call is in flight: every goroutine is between calls. *)
Definition idle (s : tstate) : bool :=
  match s with Idle => true | Running _ => false end.

Definition quiescent (cfg : config) : bool := forallb idle (pool cfg).

(** Program points between [Lock] and [Unlock]: the goroutine holds [mu]. *)
Definition holds (f : frame) : bool :=
  match f with
  | InEnqueue _ pc => match pc with EnqLock => false | _ => true end
  | InDequeue pc =>
      match pc with
      | DeqLock | DeqParked | DeqRelock => false
      | _ => true
      end
  | InIsEmpty pc => match pc with EmpLock => false | _ => true end
  | InSize pc => match pc with SizeLock => false | _ => true end
  end.

Definition holding (s : tstate) : bool :=
  match s with Idle => false | Running f => holds f end.

(** [Dequeue] has left its waiting loop and is about to read or drop the
    head of the slice. *)
Definition taking (s : tstate) : bool :=
  match s with
  | Running (InDequeue DeqHead) | Running (InDequeue (DeqSlice _)) => true
  | _ => false
  end.

(** Goroutines of a pool whose state satisfies [P]. *)
Fixpoint count (P : tstate -> bool) (l : list tstate) : nat :=
  match l with
  | [] => 0
  | s :: l' => (if P s then 1 else 0) + count P l'
  end.

(** An [Enqueue] that has appended its item and not returned yet. *)
Definition appended (s : tstate) : bool :=
  match s with
  | Running (InEnqueue _ EnqSignal) | Running (InEnqueue _ EnqUnlock) => true
  | _ => false
  end.

(** A [Dequeue] that has dropped the head and not returned yet. *)
Definition removed (s : tstate) : bool :=
  match s with
  | Running (InDequeue (DeqReturn _)) => true
  | _ => false
  end.

(** Completed [Enqueue] calls of a history. *)
Fixpoint enqueues (h : list (tid * event)) : nat :=
  match h with
  | [] => 0
  | (_, EvEnqueue _) :: h' => S (enqueues h')
  | _ :: h' => enqueues h'
  end.

(** Completed successful [Dequeue] calls of a history. *)
Fixpoint dequeues (h : list (tid * event)) : nat :=
  match h with
  | [] => 0
  | (_, EvDequeue _ true) :: h' => S (dequeues h')
  | _ :: h' => dequeues h'
  end.

(** The success flag of a completed [Dequeue]; other calls have none. *)
Definition dequeue_ok (e : event) : bool :=
  match e with
  | EvDequeue _ ok => ok
  | _ => true
  end.

(** Goroutine [t] is suspended in [Wait]: parked and not yet signalled. *)
Definition suspended (cfg : config) (t : tid) : bool :=
  match pool cfg !! t with
  | Some (Running (InDequeue DeqParked)) => inb t (cond (shared cfg))
  | _ => false
  end.

(** What holds of every configuration a schedule can reach, together with
    the history of completed calls. *)
Record Inv (cfg : config) (h : list (tid * event)) : Prop := mkInv {
  (* a goroutine between Lock and Unlock has the mutex, and is alone there *)
  inv_mutex : forall t s,
    pool cfg !! t = Some s -> holding s = true ->
    mu (shared cfg) = true /\
    forall t' s', pool cfg !! t' = Some s' -> holding s' = true -> t' = t;
  (* a locked mutex is held by some goroutine *)
  inv_locked :
    mu (shared cfg) = true ->
    exists t s, pool cfg !! t = Some s /\ holding s = true;
  (* a Dequeue past its waiting loop sees a non-empty slice *)
  inv_nonempty : forall t s,
    pool cfg !! t = Some s -> taking s = true -> queue (shared cfg) <> [];
  (* items in the slice = items appended - items dropped *)
  inv_balance :
    length (queue (shared cfg)) + count removed (pool cfg) + dequeues h =
    count appended (pool cfg) + enqueues h;
  (* the waiters are distinct goroutines parked in Wait *)
  inv_waiters :
    NoDup (cond (shared cfg)) /\
    forall t, t ∈ cond (shared cfg) ->
      pool cfg !! t = Some (Running (InDequeue DeqParked));
}.

End Queue.

Arguments ThreadSafeQueue V : clear implicits.
Arguments event V : clear implicits.
Arguments DequeuePC V : clear implicits.
Arguments frame V : clear implicits.
Arguments tstate V : clear implicits.
Arguments call V : clear implicits.
Arguments config V : clear implicits.
Arguments action V : clear implicits.
Arguments solo V : clear implicits.

(** A small universe of dynamically typed values, for examples:
    [interface{}] values of different Go types, and the nil interface. *)
Inductive any : Type :=
| Nil
| Int (n : Z)
| Str (s : string)
| Float64 (bits : Z)   (* the IEEE 754 bits of a float64 *)
| Boolean (b : bool).

(** Schedules on queues of [any] values, used as worked examples. *)

(** A consumer finds the queue empty and waits; two producers insert, the
    first waking the consumer, which then takes the first value. *)
Definition schedule_handoff : list (action any) :=
  [Invoke 0 CallDequeue; Step 0; Step 0; Step 0;
   Invoke 1 (CallEnqueue (Int 42)); Step 1; Step 1;
   Invoke 2 (CallEnqueue (Str "a"%string)); Step 1; Step 1;
   Step 2; Step 0; Step 2; Step 2; Step 2;
   Step 0; Step 0; Step 0; Step 0; Step 0].

(** A consumer has locked the mutex and found the slice empty. *)
Definition schedule_empty : list (action any) :=
  [Invoke 0 CallDequeue; Step 0; Step 0].

(** Two consumers wait; a producer has appended [Nil] and is about to
    signal. *)
Definition schedule_two_waiters : list (action any) :=
  [Invoke 0 CallDequeue; Step 0; Step 0; Step 0;
   Invoke 1 CallDequeue; Step 1; Step 1; Step 1;
   Invoke 2 (CallEnqueue Nil); Step 2; Step 2].

(** An enqueue completed by goroutine 0, then a dequeue by goroutine 1. *)
Definition schedule_in_out : list (action any) :=
  [Invoke 0 (CallEnqueue (Boolean true)); Step 0; Step 0; Step 0; Step 0;
   Invoke 1 CallDequeue; Step 1; Step 1; Step 1; Step 1; Step 1].

(** A racing wake-up: consumer 0 waits, producer 1 inserts and signals it,
    but consumer 2 takes the value before consumer 0 has locked the mutex
    again; consumer 0 then runs its next four statements. *)
Definition schedule_race : list (action any) :=
  [Invoke 0 CallDequeue; Step 0; Step 0; Step 0;
   Invoke 1 (CallEnqueue (Int 7)); Step 1; Step 1; Step 1; Step 1;
   Invoke 2 CallDequeue; Step 2; Step 2; Step 2; Step 2; Step 2;
   Step 0; Step 0; Step 0; Step 0].

(** Goroutine 0 has inserted a value and is now inside Size, having
    read the length. *)
Definition schedule_size_read : list (action any) :=
  [Invoke 0 (CallEnqueue (Int 5)); Step 0; Step 0; Step 0; Step 0;
   Invoke 0 CallSize; Step 0; Step 0].

(** A queue holding two values, with two idle goroutines. *)
Definition two_values : config any :=
  mkConfig (mkQueue [Int 1; Str "x"%string] false []) [Idle; Idle].

(** ** The statements as a relation, and what histories record *)

Section Histories.
Context {V : Type}.

(** One scheduler action seen from the goroutine that moves: the queue
    and the goroutine before, the queue and the goroutine after, and the
    call completed, if any.  One rule per source statement; [exec] makes
    exactly these moves. *)
Inductive transition (t : tid)
  : ThreadSafeQueue V -> tstate V -> ThreadSafeQueue V -> tstate V ->
    list (tid * event V) -> Prop :=
| T_Invoke q c :
    transition t q Idle q (Running (entry c)) []
| T_EnqLock xs ws item :
    transition t (mkQueue xs false ws) (Running (InEnqueue item EnqLock))
                 (mkQueue xs true ws) (Running (InEnqueue item EnqAppend)) []
| T_EnqAppend xs m ws item :
    transition t (mkQueue xs m ws) (Running (InEnqueue item EnqAppend))
                 (mkQueue (xs ++ [item]) m ws) (Running (InEnqueue item EnqSignal)) []
| T_EnqSignal xs m ws item :
    transition t (mkQueue xs m ws) (Running (InEnqueue item EnqSignal))
                 (mkQueue xs m (tail ws)) (Running (InEnqueue item EnqUnlock)) []
| T_EnqUnlock xs ws item :
    transition t (mkQueue xs true ws) (Running (InEnqueue item EnqUnlock))
                 (mkQueue xs false ws) Idle [(t, EvEnqueue item)]
| T_DeqLock xs ws :
    transition t (mkQueue xs false ws) (Running (InDequeue DeqLock))
                 (mkQueue xs true ws) (Running (InDequeue DeqLoop)) []
| T_DeqLoopEmpty m ws :
    transition t (mkQueue [] m ws) (Running (InDequeue DeqLoop))
                 (mkQueue [] m ws) (Running (InDequeue DeqWait)) []
| T_DeqLoopNonEmpty x xs m ws :
    transition t (mkQueue (x :: xs) m ws) (Running (InDequeue DeqLoop))
                 (mkQueue (x :: xs) m ws) (Running (InDequeue DeqHead)) []
| T_DeqWait xs ws :
    transition t (mkQueue xs true ws) (Running (InDequeue DeqWait))
                 (mkQueue xs false (ws ++ [t])) (Running (InDequeue DeqParked)) []
| T_DeqParked xs m ws :
    inb t ws = false ->
    transition t (mkQueue xs m ws) (Running (InDequeue DeqParked))
                 (mkQueue xs m ws) (Running (InDequeue DeqRelock)) []
| T_DeqRelock xs ws :
    transition t (mkQueue xs false ws) (Running (InDequeue DeqRelock))
                 (mkQueue xs true ws) (Running (InDequeue DeqLoop)) []
| T_DeqHead x xs m ws :
    transition t (mkQueue (x :: xs) m ws) (Running (InDequeue DeqHead))
                 (mkQueue (x :: xs) m ws) (Running (InDequeue (DeqSlice x))) []
| T_DeqSlice x xs m ws item :
    transition t (mkQueue (x :: xs) m ws) (Running (InDequeue (DeqSlice item)))
                 (mkQueue xs m ws) (Running (InDequeue (DeqReturn item))) []
| T_DeqReturn xs ws item :
    transition t (mkQueue xs true ws) (Running (InDequeue (DeqReturn item)))
                 (mkQueue xs false ws) Idle [(t, EvDequeue item true)]
| T_EmpLock xs ws :
    transition t (mkQueue xs false ws) (Running (InIsEmpty EmpLock))
                 (mkQueue xs true ws) (Running (InIsEmpty EmpLen)) []
| T_EmpLen xs m ws :
    transition t (mkQueue xs m ws) (Running (InIsEmpty EmpLen))
                 (mkQueue xs m ws)
                 (Running (InIsEmpty (EmpReturn (length xs =? 0)%nat))) []
| T_EmpReturn xs ws b :
    transition t (mkQueue xs true ws) (Running (InIsEmpty (EmpReturn b)))
                 (mkQueue xs false ws) Idle [(t, EvIsEmpty b)]
| T_SizeLock xs ws :
    transition t (mkQueue xs false ws) (Running (InSize SizeLock))
                 (mkQueue xs true ws) (Running (InSize SizeLen)) []
| T_SizeLen xs m ws :
    transition t (mkQueue xs m ws) (Running (InSize SizeLen))
                 (mkQueue xs m ws)
                 (Running (InSize (SizeReturn (Z.of_nat (length xs))))) []
| T_SizeReturn xs ws n :
    transition t (mkQueue xs true ws) (Running (InSize (SizeReturn n)))
                 (mkQueue xs false ws) Idle [(t, EvSize n)].

(** What a goroutine knows about the slice at its program point: the
    value of a local variable it has computed from the slice, or the
    outcome of a test it has made on it. *)
Definition local (s : tstate V) (xs : list V) : Prop :=
  match s with
  | Running (InEnqueue item EnqSignal)
  | Running (InEnqueue item EnqUnlock) => last xs = Some item
  | Running (InDequeue DeqWait) => xs = []
  | Running (InDequeue DeqHead) => xs <> []
  | Running (InDequeue (DeqSlice item)) => head xs = Some item
  | Running (InIsEmpty (EmpReturn b)) => b = (length xs =? 0)%nat
  | Running (InSize (SizeReturn n)) => n = Z.of_nat (length xs)
  | _ => True
  end.

(** The values of the completed [Enqueue] calls of a history, in order. *)
Fixpoint enqueued (h : list (tid * event V)) : list V :=
  match h with
  | [] => []
  | (_, EvEnqueue item) :: h' => item :: enqueued h'
  | _ :: h' => enqueued h'
  end.

(** The values returned by the completed [Dequeue] calls of a history, in
    order. *)
Fixpoint dequeued (h : list (tid * event V)) : list V :=
  match h with
  | [] => []
  | (_, EvDequeue item _) :: h' => item :: dequeued h'
  | _ :: h' => dequeued h'
  end.

(** The value an [Enqueue] in flight has appended already. *)
Definition appending (s : tstate V) : list V :=
  match s with
  | Running (InEnqueue item EnqSignal)
  | Running (InEnqueue item EnqUnlock) => [item]
  | _ => []
  end.

(** The value a [Dequeue] in flight has dropped from the slice already. *)
Definition removing (s : tstate V) : list V :=
  match s with
  | Running (InDequeue (DeqReturn item)) => [item]
  | _ => []
  end.

(** Goroutines that will look at the slice, or signal, before they do
    anything else: a producer about to signal, and consumers in their
    waiting loop or about to take the head. *)
Definition pending (s : tstate V) : bool :=
  match s with
  | Running (InEnqueue _ EnqSignal) => true
  | Running (InDequeue pc) =>
      match pc with
      | DeqLock | DeqReturn _ => false
      | _ => true
      end
  | _ => false
  end.

(** The call an event completes. *)
Definition call_of_event (e : event V) : call V :=
  match e with
  | EvEnqueue item => CallEnqueue item
  | EvDequeue _ _ => CallDequeue
  | EvIsEmpty _ => CallIsEmpty
  | EvSize _ => CallSize
  end.

(** The call a goroutine is executing. *)
Definition call_of_frame (f : frame V) : call V :=
  match f with
  | InEnqueue item _ => CallEnqueue item
  | InDequeue _ => CallDequeue
  | InIsEmpty _ => CallIsEmpty
  | InSize _ => CallSize
  end.

Definition in_call (s : tstate V) : list (call V) :=
  match s with
  | Idle => []
  | Running f => [call_of_frame f]
  end.

(** The calls goroutine [t] starts in a schedule, in order. *)
Fixpoint invoked (t : tid) (acts : list (action V)) : list (call V) :=
  match acts with
  | [] => []
  | Invoke u c :: acts' =>
      if Nat.eqb u t then c :: invoked t acts' else invoked t acts'
  | Step _ :: acts' => invoked t acts'
  end.

(** The calls of goroutine [t] that a history records as completed. *)
Fixpoint completed (t : tid) (h : list (tid * event V)) : list (call V) :=
  match h with
  | [] => []
  | (u, e) :: h' =>
      if Nat.eqb u t then call_of_event e :: completed t h' else completed t h'
  end.

(** The values a list of calls passes to [Enqueue]. *)
Fixpoint enqueue_items (cs : list (call V)) : list V :=
  match cs with
  | [] => []
  | CallEnqueue item :: cs' => item :: enqueue_items cs'
  | _ :: cs' => enqueue_items cs'
  end.

(** Every goroutine's knowledge of the slice is accurate. *)
Definition Loc (cfg : config V) : Prop :=
  forall t s, pool cfg !! t = Some s -> local s (queue (shared cfg)).

(** Values are neither lost, nor duplicated, nor reordered: what has been
    handed out, then what the holder of the mutex has just dropped, then
    what is stored, is what has been put in, then what the holder of the
    mutex has just appended. *)
Definition Fifo (cfg : config V) (h : list (tid * event V)) : Prop :=
  (mu (shared cfg) = false ->
   dequeued h ++ queue (shared cfg) = enqueued h) /\
  (forall t s, pool cfg !! t = Some s -> holding s = true ->
   dequeued h ++ removing s ++ queue (shared cfg) = enqueued h ++ appending s).

(** While somebody waits, every stored value has a goroutine on its way
    to it. *)
Definition Wake (cfg : config V) : Prop :=
  cond (shared cfg) <> [] ->
  length (queue (shared cfg)) + length (cond (shared cfg)) <=
  count pending (pool cfg).

(** The call goroutine [t] is executing in a pool, if any. *)
Definition current (t : tid) (p : list (tstate V)) : list (call V) :=
  match p !! t with
  | Some s => in_call s
  | None => []
  end.

End Histories.

(** ** The example programs (the producer/consumer program of the README
    and examples/concurrentoperations) *)

(** [for i := 0; i < 10; i++ { q.Enqueue(i) }]: the calls the producer
    goroutine makes, in order. *)
Definition producer : list (call any) :=
  (fun i => CallEnqueue (Int (Z.of_nat i))) <$> seq 0 10.

(** [for i := 0; i < 10; i++ { item, _ := q.Dequeue(); fmt.Println(..., item) }]:
    the calls the consumer goroutine makes; it prints each value it gets. *)
Definition consumer : list (call any) := replicate 10 CallDequeue.

(** [main]: one goroutine runs the producer, another the consumer, on one
    new queue; no other goroutine touches the queue. *)
Definition main (t : tid) : list (call any) :=
  match t with
  | 0 => producer
  | 1 => consumer
  | _ => []
  end.

(** The producer has inserted 0, 1 and 2 and the consumer has taken 0 and
    1, the two goroutines taking turns. *)
Definition schedule_main : list (action any) :=
  [Invoke 1 CallDequeue; Step 1; Step 1; Step 1;
   Invoke 0 (CallEnqueue (Int 0)); Step 0; Step 0; Step 0; Step 0;
   Invoke 0 (CallEnqueue (Int 1)); Step 0; Step 0;
   Step 1; Step 0; Step 0;
   Step 1; Step 1; Step 1; Step 1; Step 1;
   Invoke 1 CallDequeue; Step 1; Step 1; Step 1; Step 1; Step 1;
   Invoke 0 (CallEnqueue (Int 2)); Step 0; Step 0; Step 0; Step 0].

(** ** The sequential tests (TestOrdering, TestEnqueueDequeueCount) *)

(** A running test: the configuration, in which the test is goroutine 0,
    and the failures reported through [t.Errorf] so far (their format
    strings).  A test that cannot go on (its goroutine blocks for ever)
    has no result. *)
Definition test_state : Type := config any * list string.

(** [for i := start; i < start + count; i++ { body }]. *)
Fixpoint for_range (i count : nat)
  (body : nat -> test_state -> option test_state) (st : test_state)
  : option test_state :=
  match count with
  | O => Some st
  | S count' =>
      match body i st with
      | Some st' => for_range (S i) count' body st'
      | None => None
      end
  end.

(** [q.Enqueue(i)] *)
Definition enqueue_int (i : nat) (st : test_state) : option test_state :=
  match do_call 0 (CallEnqueue (Int (Z.of_nat i))) st.1 with
  | Done _ cfg => Some (cfg, st.2)
  | _ => None
  end.

(** [item != i], for an interface value [item] and an int [i]: they are
    equal only if [item] holds an int, and that int is [i]. *)
Definition ne_int (item : any) (i : Z) : bool :=
  match item with
  | Int k => negb (k =? i)%Z
  | _ => true
  end.

(** [item, ok := q.Dequeue(); if !ok || item != i { t.Errorf(...) }] *)
Definition dequeue_expect (i : nat) (st : test_state) : option test_state :=
  match do_call 0 CallDequeue st.1 with
  | Done (EvDequeue item ok) cfg =>
      Some (cfg, if negb ok || ne_int item (Z.of_nat i)
                 then st.2 ++ ["Expected to dequeue %d, got %v"%string]
                 else st.2)
  | _ => None
  end.

(** [q.Dequeue()], the results dropped *)
Definition dequeue_drop (i : nat) (st : test_state) : option test_state :=
  match do_call 0 CallDequeue st.1 with
  | Done _ cfg => Some (cfg, st.2)
  | _ => None
  end.

(** [if q.Size() != want { t.Errorf("Expected size to be %d, got %d", want, q.Size()) }];
    the failing branch calls Size once more for the message. *)
Definition expect_size (want : Z) (st : test_state) : option test_state :=
  match do_call 0 CallSize st.1 with
  | Done (EvSize k) cfg =>
      if (k =? want)%Z then Some (cfg, st.2)
      else
        match do_call 0 CallSize cfg with
        | Done _ cfg' =>
            Some (cfg', st.2 ++ ["Expected size to be %d, got %d"%string])
        | _ => None
        end
  | _ => None
  end.

(** TestOrdering, with its constant 10 as the parameter [count]: the
    failures it reports. *)
Definition TestOrdering (count : nat) : option (list string) :=
  match for_range 0 count enqueue_int (init 1, []) with
  | Some st =>
      match for_range 0 count dequeue_expect st with
      | Some st' => Some st'.2
      | None => None
      end
  | None => None
  end.

(** TestEnqueueDequeueCount, with its constant 10 as the parameter
    [count]: the failures it reports. *)
Definition TestEnqueueDequeueCount (count : nat) : option (list string) :=
  match for_range 0 count enqueue_int (init 1, []) with
  | Some st1 =>
      match expect_size (Z.of_nat count) st1 with
      | Some st2 =>
          match for_range 0 count dequeue_drop st2 with
          | Some st3 =>
              match expect_size 0 st3 with
              | Some st4 => Some st4.2
              | None => None
              end
          | None => None
          end
      | None => None
      end
  | None => None
  end.

(** * Calls that run one after the other *)

Section Sequential.
Context {V : Type}.
Implicit Types (cfg : config V) (q : ThreadSafeQueue V) (p : list (tstate V)).
Implicit Types (t : tid) (f : frame V) (item : V).

Lemma inb_elem_of t (l : list tid) : inb t l = true <-> t ∈ l.
Proof.
  unfold inb. rewrite existsb_exists, list_elem_of_In. split.
  - intros (x & Hx & Ht). apply Nat.eqb_eq in Ht. now subst.
  - intros Ht. exists t. split; [assumption | apply Nat.eqb_refl].
Qed.

(** One statement of a goroutine running alone, the other goroutines
    staying where they are in [p]. *)
Lemma finish_at k t f q p :
  t < length p ->
  finish k t (mkConfig q (<[t := Running f]> p)) =
  match thread_step t f q with
  | Goto f' q' =>
      match k with
      | O => OutOfFuel
      | S k' => finish k' t (mkConfig q' (<[t := Running f']> p))
      end
  | Return e q' => Done e (mkConfig q' (<[t := Idle]> p))
  | Blocked => Stuck (mkConfig q (<[t := Running f]> p))
  | Panic => Crashed
  end.
Proof.
  intros Ht. destruct k; simpl; rewrite list_lookup_insert_eq by assumption;
    destruct (thread_step t f q); rewrite ?list_insert_insert_eq; reflexivity.
Qed.

Ltac solo H :=
  unfold do_call; cbn [pool shared]; rewrite H;
  repeat (rewrite finish_at by (eapply lookup_lt_Some; exact H);
          cbn [thread_step lift entry Enqueue Dequeue IsEmpty Size Lock Unlock
               Signal Wait_suspend mu queue cond length Nat.eqb]);
  rewrite ?(list_insert_id _ _ _ H).

Lemma do_call_Enqueue t item xs ws p :
  p !! t = Some Idle ->
  do_call t (CallEnqueue item) (mkConfig (mkQueue xs false ws) p) =
  Done (EvEnqueue item) (mkConfig (mkQueue (xs ++ [item]) false (tail ws)) p).
Proof. intros H. solo H. reflexivity. Qed.

Lemma do_call_Dequeue_cons t x xs ws p :
  p !! t = Some Idle ->
  do_call t CallDequeue (mkConfig (mkQueue (x :: xs) false ws) p) =
  Done (EvDequeue x true) (mkConfig (mkQueue xs false ws) p).
Proof. intros H. solo H. reflexivity. Qed.

Lemma do_call_Dequeue_nil t ws p :
  p !! t = Some Idle ->
  do_call t CallDequeue (mkConfig (mkQueue [] false ws) p) =
  Stuck (mkConfig (mkQueue [] false (ws ++ [t]))
                  (<[t := Running (InDequeue DeqParked)]> p)).
Proof.
  intros H. solo H. unfold Wait_notified. cbn [cond].
  replace (inb t (ws ++ [t])) with true; [reflexivity |].
  symmetry. apply inb_elem_of. apply elem_of_app. right. apply list_elem_of_singleton. reflexivity.
Qed.

Lemma do_call_IsEmpty t xs ws p :
  p !! t = Some Idle ->
  do_call t CallIsEmpty (mkConfig (mkQueue xs false ws) p) =
  Done (EvIsEmpty (length xs =? 0)%nat) (mkConfig (mkQueue xs false ws) p).
Proof. intros H. solo H. reflexivity. Qed.

Lemma do_call_Size t xs ws p :
  p !! t = Some Idle ->
  do_call t CallSize (mkConfig (mkQueue xs false ws) p) =
  Done (EvSize (Z.of_nat (length xs))) (mkConfig (mkQueue xs false ws) p).
Proof. intros H. solo H. reflexivity. Qed.

Lemma do_calls_app cfg (a b : list (tid * call V)) :
  do_calls cfg (a ++ b) =
  match do_calls cfg a with
  | Some (es, cfg') =>
      match do_calls cfg' b with
      | Some (es', cfg'') => Some (es ++ es', cfg'')
      | None => None
      end
  | None => None
  end.
Proof.
  revert cfg. induction a as [|[t c] a IH]; intros cfg; simpl.
  - destruct (do_calls cfg b) as [[es' cfg'']|]; reflexivity.
  - destruct (do_call t c cfg) as [e cfg'| | | |]; try reflexivity.
    rewrite IH. destruct (do_calls cfg' a) as [[es c1]|]; [|reflexivity].
    destruct (do_calls c1 b) as [[es' c2]|]; reflexivity.
Qed.

(** A run of [Enqueue] calls appends the items in call order. *)
Lemma do_calls_Enqueue (es : list (tid * V)) xs ws p :
  Forall (fun t => p !! t = Some Idle) es.*1 ->
  do_calls (mkConfig (mkQueue xs false ws) p)
           ((fun e => (e.1, CallEnqueue e.2)) <$> es) =
  Some (EvEnqueue <$> es.*2,
        mkConfig (mkQueue (xs ++ es.*2) false (drop (length es) ws)) p).
Proof.
  revert xs ws. induction es as [|[t v] es IH]; intros xs ws Hidle; simpl.
  - rewrite app_nil_r, drop_0. reflexivity.
  - inversion Hidle as [|? ? Ht Hrest]; subst.
    rewrite do_call_Enqueue by exact Ht. rewrite IH by exact Hrest.
    rewrite <- app_assoc. simpl. destruct ws; simpl; [rewrite drop_nil|]; reflexivity.
Qed.

(** A run of [Dequeue] calls on a slice that holds enough items returns
    them front to back. *)
Lemma do_calls_Dequeue (cs : list tid) xs ys ws p :
  Forall (fun t => p !! t = Some Idle) cs ->
  length cs = length xs ->
  do_calls (mkConfig (mkQueue (xs ++ ys) false ws) p)
           ((fun t => (t, CallDequeue)) <$> cs) =
  Some ((fun v => EvDequeue v true) <$> xs, mkConfig (mkQueue ys false ws) p).
Proof.
  revert xs. induction cs as [|t cs IH]; intros [|x xs] Hidle Hlen;
    simpl in Hlen; try discriminate; simpl.
  - reflexivity.
  - inversion Hidle as [|? ? Ht Hrest]; subst.
    rewrite do_call_Dequeue_cons by exact Ht.
    rewrite IH by (try exact Hrest; congruence). reflexivity.
Qed.

(** C1. FIFO order: on a queue that holds nothing, with the mutex free
    and the calling goroutines between calls, N calls of Enqueue with
    values v1..vN followed by N calls of Dequeue all return, and the
    Dequeue calls return v1..vN in that order, each with [true]; the
    values come back as they went in, whatever their type.  The queue is
    empty again afterwards. *)
Theorem Dequeue_returns_in_Enqueue_order cfg (es : list (tid * V)) (cs : list tid) :
  mu (shared cfg) = false ->
  queue (shared cfg) = [] ->
  Forall (fun t => pool cfg !! t = Some Idle) (es.*1 ++ cs) ->
  length cs = length es ->
  do_calls cfg (((fun e => (e.1, CallEnqueue e.2)) <$> es) ++
                ((fun t => (t, CallDequeue)) <$> cs)) =
  Some ((EvEnqueue <$> es.*2) ++ ((fun v => EvDequeue v true) <$> es.*2),
        mkConfig (mkQueue [] false (drop (length es) (cond (shared cfg))))
                 (pool cfg)).
Proof.
  destruct cfg as [[xs m ws] p]; simpl. intros -> -> Hidle Hlen.
  apply Forall_app in Hidle as [Hes Hcs].
  rewrite do_calls_app, do_calls_Enqueue by exact Hes. simpl.
  rewrite <- (app_nil_r es.*2) at 1.
  rewrite do_calls_Dequeue; [reflexivity | exact Hcs |].
  rewrite Hlen. unfold fmap. now rewrite length_map.
Qed.

(** C3. A new queue is empty: the slice holds nothing, the mutex is free,
    nobody waits, and on it IsEmpty returns [true] and Size returns 0,
    leaving it as it is. *)
Theorem NewThreadSafeQueue_is_empty (n : nat) t :
  t < n ->
  queue (NewThreadSafeQueue (V := V)) = [] /\
  mu (NewThreadSafeQueue (V := V)) = false /\
  cond (NewThreadSafeQueue (V := V)) = [] /\
  do_call t CallIsEmpty (init (V := V) n) = Done (EvIsEmpty true) (init n) /\
  do_call t CallSize (init (V := V) n) = Done (EvSize 0) (init n).
Proof.
  intros Ht. repeat split; unfold init, NewThreadSafeQueue.
  - now rewrite do_call_IsEmpty by (now apply lookup_replicate_2).
  - now rewrite do_call_Size by (now apply lookup_replicate_2).
Qed.

(** What one statement of Enqueue does to the slice, wherever it runs. *)
Lemma Enqueue_statement item pc q :
  match Enqueue item pc q with
  | Goto _ q' | Return _ q' =>
      queue q' = if pc is EnqAppend then queue q ++ [item] else queue q
  | _ => True
  end.
Proof.
  destruct pc; simpl; unfold Lock, Unlock; try destruct (mu q); reflexivity.
Qed.

(** C4. Enqueue always succeeds and appends at the tail: for any slice
    contents and any value, a call made while the mutex is free returns,
    without a panic and without an error result (the method has none), and
    the slice is then the old slice followed by the value; the old
    elements are untouched.  Among the statements of Enqueue only the
    append changes the slice. *)
Theorem Enqueue_appends_at_tail cfg t item :
  pool cfg !! t = Some Idle ->
  mu (shared cfg) = false ->
  do_call t (CallEnqueue item) cfg =
    Done (EvEnqueue item)
         (mkConfig (mkQueue (queue (shared cfg) ++ [item]) false
                            (tail (cond (shared cfg))))
                   (pool cfg)) /\
  forall pc q,
    match Enqueue item pc q with
    | Goto _ q' | Return _ q' =>
        queue q' = if pc is EnqAppend then queue q ++ [item] else queue q
    | _ => True
    end.
Proof.
  destruct cfg as [[xs m ws] p]; simpl. intros Ht ->. split.
  - now apply do_call_Enqueue.
  - apply Enqueue_statement.
Qed.

(** C6. IsEmpty agrees with Size: called on the same state (mutex free),
    both return and leave the state alone, IsEmpty returns [true] exactly
    when Size returns 0, and IsEmpty returns [false] exactly when the slice
    still holds a value. *)
Theorem IsEmpty_iff_Size_zero cfg t :
  pool cfg !! t = Some Idle ->
  mu (shared cfg) = false ->
  exists b n,
    do_call t CallIsEmpty cfg = Done (EvIsEmpty b) cfg /\
    do_call t CallSize cfg = Done (EvSize n) cfg /\
    (b = true <-> n = 0%Z) /\
    (b = false <-> queue (shared cfg) <> []).
Proof.
  destruct cfg as [[xs m ws] p]; simpl. intros Ht ->.
  exists (length xs =? 0)%nat, (Z.of_nat (length xs)).
  split; [now apply do_call_IsEmpty|]. split; [now apply do_call_Size|].
  destruct xs; simpl; split; split; intros; congruence || lia.
Qed.

(** C9. Dequeue on a non-empty queue removes the head and nothing else:
    with the slice [x :: xs] and the mutex free the call returns
    [(x, true)], the slice is then [xs] (the remaining elements, in their
    order), nothing else changes, and Size goes down by one. *)
Theorem Dequeue_removes_head cfg t x xs :
  pool cfg !! t = Some Idle ->
  mu (shared cfg) = false ->
  queue (shared cfg) = x :: xs ->
  let cfg' := mkConfig (mkQueue xs false (cond (shared cfg))) (pool cfg) in
  do_call t CallDequeue cfg = Done (EvDequeue x true) cfg' /\
  exists n,
    do_call t CallSize cfg = Done (EvSize n) cfg /\
    do_call t CallSize cfg' = Done (EvSize (n - 1)) cfg'.
Proof.
  destruct cfg as [[ys m ws] p]; simpl. intros Ht -> ->. split.
  - now apply do_call_Dequeue_cons.
  - exists (Z.of_nat (length (x :: xs))). split.
    + now apply do_call_Size.
    + rewrite do_call_Size by exact Ht. do 3 f_equal. simpl length. lia.
Qed.

(** What the statements of IsEmpty and Size do to the slice and to the
    waiters, wherever they run: nothing. *)
Lemma IsEmpty_statement pc q :
  match IsEmpty pc q with
  | Goto _ q' | Return _ q' => queue q' = queue q /\ cond q' = cond q
  | _ => True
  end.
Proof.
  destruct pc; simpl; unfold Lock, Unlock; try destruct (mu q); split; reflexivity.
Qed.

Lemma Size_statement pc q :
  match Size pc q with
  | Goto _ q' | Return _ q' => queue q' = queue q /\ cond q' = cond q
  | _ => True
  end.
Proof.
  destruct pc; simpl; unfold Lock, Unlock; try destruct (mu q); split; reflexivity.
Qed.

(** C10. IsEmpty and Size only observe: a call made while the mutex is
    free returns and leaves the whole configuration, the stored values
    included, exactly as it was; and no statement of either method, run in
    any state, changes the slice. *)
Theorem IsEmpty_Size_observe_only cfg t :
  pool cfg !! t = Some Idle ->
  mu (shared cfg) = false ->
  (exists b, do_call t CallIsEmpty cfg = Done (EvIsEmpty b) cfg) /\
  (exists n, do_call t CallSize cfg = Done (EvSize n) cfg) /\
  (forall pc q,
     match IsEmpty pc q with
     | Goto _ q' | Return _ q' => queue q' = queue q
     | _ => True
     end) /\
  (forall pc q,
     match Size pc q with
     | Goto _ q' | Return _ q' => queue q' = queue q
     | _ => True
     end).
Proof.
  destruct cfg as [[xs m ws] p]; simpl. intros Ht ->. repeat split.
  - eexists. now apply do_call_IsEmpty.
  - eexists. now apply do_call_Size.
  - intros pc q. pose proof (IsEmpty_statement pc q) as H.
    destruct (IsEmpty pc q); tauto.
  - intros pc q. pose proof (Size_statement pc q) as H.
    destruct (Size pc q); tauto.
Qed.

End Sequential.

(** * Interleaved goroutines: what every schedule preserves *)

Section Invariant.
Context {V : Type}.
Implicit Types (cfg : config V) (q : ThreadSafeQueue V) (p : list (tstate V)).
Implicit Types (t u : tid) (s : tstate V) (h evs : list (tid * event V)).

Lemma count_insert (P : tstate V -> bool) p t s s' :
  p !! t = Some s ->
  count P (<[t := s']> p) + Nat.b2n (P s) = count P p + Nat.b2n (P s').
Proof.
  revert t. induction p as [|x p IH]; intros [|t] Hl; simpl in *; try discriminate.
  - injection Hl as ->. destruct (P s), (P s'); simpl; lia.
  - specialize (IH t Hl). lia.
Qed.

Lemma count_replicate_Idle (P : tstate V -> bool) n :
  P Idle = false -> count P (replicate n Idle) = 0.
Proof. intros H. induction n; simpl; [reflexivity | now rewrite H]. Qed.

Lemma count_quiescent (P : tstate V -> bool) p :
  P Idle = false -> forallb idle p = true -> count P p = 0.
Proof.
  intros H. induction p as [|[|f] p IH]; simpl; intros Hq;
    [reflexivity | rewrite H; now apply IH | discriminate].
Qed.

Lemma enqueues_app h evs : enqueues (h ++ evs) = enqueues h + enqueues evs.
Proof.
  induction h as [|[t [item|item ok|b|n]] h IH]; simpl; rewrite ?IH; reflexivity.
Qed.

Lemma dequeues_app h evs : dequeues (h ++ evs) = dequeues h + dequeues evs.
Proof.
  induction h as [|[t [item|item [|]|b|n]] h IH]; simpl; rewrite ?IH; reflexivity.
Qed.

Lemma taking_holding s : taking s = true -> holding s = true.
Proof. destruct s as [|[item pc|pc|pc|pc]]; try destruct pc; simpl; congruence. Qed.

Lemma lookup_insert_cases p t u s s' :
  <[t := s']> p !! u = Some s -> (u = t /\ s = s') \/ (u <> t /\ p !! u = Some s).
Proof.
  intros H. apply list_lookup_insert_Some in H as [(-> & -> & _) | (Hne & H)]; auto.
Qed.

(** Goroutine [t] moves from [s] to [s'] and the queue from [q] to [q']:
    what the move has to satisfy for the invariant to survive it. *)
Lemma Inv_update q q' p t s s' h evs :
  Inv (mkConfig q p) h ->
  p !! t = Some s ->
  (holding s' = true -> mu q' = true) ->
  (holding s' = true -> holding s = true \/ mu q = false) ->
  (mu q = true -> holding s = false -> mu q' = true) ->
  (mu q' = true -> holding s' = true \/ (mu q = true /\ holding s = false)) ->
  (taking s' = true -> queue q' <> []) ->
  ((queue q <> [] -> queue q' <> []) \/ holding s = true) ->
  length (queue q') + Nat.b2n (removed s') + dequeues evs + Nat.b2n (appended s) =
    length (queue q) + Nat.b2n (removed s) + Nat.b2n (appended s') + enqueues evs ->
  NoDup (cond q') ->
  (forall u, u ∈ cond q' ->
     (u = t /\ s' = Running (InDequeue DeqParked)) \/ (u <> t /\ u ∈ cond q)) ->
  Inv (mkConfig q' (<[t := s']> p)) (h ++ evs).
Proof.
  intros [Hmx Hlk Hne Hbal [_ Hw]] Ht Ca Cb Cc Cd Na Nb B Wd Ww; simpl in *.
  pose proof (lookup_lt_Some _ _ _ Ht) as Hlt.
  constructor; simpl.
  - intros u su Hu Hhold.
    apply lookup_insert_cases in Hu as [[-> ->] | [Hut Hu]].
    + split; [auto|]. intros u' su' Hu' Hhold'.
      apply lookup_insert_cases in Hu' as [[-> ->] | [Hut' Hu']]; [reflexivity|].
      destruct (Hmx _ _ Hu' Hhold') as [Hm Huniq].
      destruct (Cb Hhold) as [Hs | Hm']; [|congruence].
      symmetry. now apply Huniq with s.
    + destruct (Hmx _ _ Hu Hhold) as [Hm Huniq].
      assert (Hs : holding s = false).
      { destruct (holding s) eqn:E; [|reflexivity].
        exfalso. apply Hut. symmetry. now apply Huniq with s. }
      split; [auto|]. intros u' su' Hu' Hhold'.
      apply lookup_insert_cases in Hu' as [[-> ->] | [Hut' Hu']].
      * destruct (Cb Hhold') as [Hs' | Hm']; congruence.
      * now apply Huniq with su'.
  - intros Hm'. destruct (Cd Hm') as [Hs' | [Hm Hs]].
    + exists t, s'. split; [now apply list_lookup_insert_eq | assumption].
    + destruct (Hlk Hm) as (u & su & Hu & Hhold). exists u, su. split; [|assumption].
      rewrite list_lookup_insert_ne; [assumption|]. intros ->. congruence.
  - intros u su Hu Htak.
    apply lookup_insert_cases in Hu as [[-> ->] | [Hut Hu]]; [auto|].
    destruct Nb as [Nb | Hs].
    + apply Nb. now apply Hne with u su.
    + destruct (Hmx _ _ Ht Hs) as [_ Huniq].
      exfalso. apply Hut. apply Huniq with su; [assumption | now apply taking_holding].
  - rewrite enqueues_app, dequeues_app.
    pose proof (count_insert removed p t s s' Ht).
    pose proof (count_insert appended p t s s' Ht). lia.
  - split; [assumption|]. intros u Hu.
    destruct (Ww u Hu) as [[-> ->] | [Hut Hu']].
    + now apply list_lookup_insert_eq.
    + rewrite list_lookup_insert_ne by congruence. now apply Hw.
Qed.

Lemma Inv_init n : Inv (init (V := V) n) [].
Proof.
  constructor; simpl.
  - intros t s Ht. apply lookup_replicate in Ht as [-> _]. discriminate.
  - discriminate.
  - intros t s Ht. apply lookup_replicate in Ht as [-> _]. discriminate.
  - now rewrite !count_replicate_Idle.
  - split; [constructor|]. intros t Ht. now apply elem_of_nil in Ht.
Qed.

Lemma not_suspended_ne (ws : list tid) p t u s :
  (forall v, v ∈ ws -> p !! v = Some (Running (InDequeue DeqParked))) ->
  p !! t = Some s ->
  s <> Running (InDequeue DeqParked) \/ inb t ws = false ->
  u ∈ ws -> u <> t.
Proof.
  intros Hw Ht Hs Hu ->. destruct Hs as [Hs | Hs].
  - apply Hs. specialize (Hw _ Hu). congruence.
  - apply inb_elem_of in Hu. congruence.
Qed.

Lemma elem_of_tail (ws : list tid) u : u ∈ tail ws -> u ∈ ws.
Proof. destruct ws; simpl; [auto | intros H; apply elem_of_cons; now right]. Qed.

Lemma NoDup_tail (ws : list tid) : NoDup ws -> NoDup (tail ws).
Proof. destruct ws; simpl; [auto | now inversion 1]. Qed.

Lemma NoDup_snoc (ws : list tid) t : NoDup ws -> t ∉ ws -> NoDup (ws ++ [t]).
Proof.
  intros Hd Ht. apply NoDup_app. split; [assumption|]. split.
  - intros x Hx Hx'. apply list_elem_of_singleton in Hx'. now subst.
  - apply NoDup_singleton.
Qed.

(** Every scheduler action preserves the invariant. *)
Lemma Inv_exec cfg h a cfg' evs :
  Inv cfg h -> exec cfg a = Some (cfg', evs) -> Inv cfg' (h ++ evs).
Proof.
  destruct cfg as [q p]. intros HI Hex.
  pose proof (inv_waiters _ _ HI) as [Hnd Hw]; simpl in Hnd, Hw.
  destruct a as [t c | t]; simpl in Hex.
  - destruct (p !! t) as [[|f]|] eqn:Ht; try discriminate.
    injection Hex as <- <-.
    apply Inv_update with (q := q) (s := Idle); try assumption;
      try (destruct c; simpl; intros; (discriminate || lia || tauto)).
    intros u Hu. right. split; [|assumption].
    eapply not_suspended_ne; [exact Hw | exact Ht | left; discriminate | exact Hu].
  - destruct (p !! t) as [[|f]|] eqn:Ht; try discriminate.
    pose proof (inv_mutex _ _ HI t _ Ht) as Hm.
    pose proof (inv_nonempty _ _ HI t _ Ht) as Hne.
    destruct q as [xs m ws]; simpl in *.
    destruct f as [item pc|pc|pc|pc]; destruct pc; simpl in *.
    all: unfold Lock, Unlock, Wait_suspend, Signal, Unlock, Wait_notified in Hex; simpl in Hex.
    all: try (destruct m; simpl in Hex); try discriminate.
    all: try (destruct xs as [|x xs]; simpl in Hex); try discriminate.
    all: try (destruct (inb t ws) eqn:Hin; simpl in Hex); try discriminate.
    all: injection Hex as <- <-.
    all: try (destruct Hm as [Hm _]; [reflexivity|]; try discriminate).
    all: try (specialize (Hne eq_refl); try congruence).
    all: eapply Inv_update; [exact HI | exact Ht | simpl .. ].
    all: try (intros; (discriminate || lia || tauto)).
    all: try (left; intros; (discriminate || assumption)).
    all: try (apply NoDup_tail; assumption).
    all: try (rewrite length_app; simpl; lia).
    all: try (intros u Hu; try apply elem_of_tail in Hu; right; split; [|exact Hu];
              eapply not_suspended_ne;
              [exact Hw | exact Ht | (left; discriminate) || (right; exact Hin) | exact Hu]).
    all: try (apply NoDup_snoc; [assumption|]; intros Hu;
              eapply (not_suspended_ne ws p t t); [exact Hw | exact Ht | left; discriminate | exact Hu | reflexivity]).
    all: intros u Hu; apply elem_of_app in Hu as [Hu | Hu].
    all: try (left; apply list_elem_of_singleton in Hu; split; [exact Hu | reflexivity]).
    all: right; split; [|exact Hu].
    all: eapply not_suspended_ne; [exact Hw | exact Ht | left; discriminate | exact Hu].
Qed.

Lemma Inv_run acts : forall cfg h cfg' h',
  Inv cfg h -> run cfg h acts = Some (cfg', h') -> Inv cfg' h'.
Proof.
  induction acts as [|a acts IH]; intros cfg h cfg' h' HI Hrun; simpl in Hrun.
  - now injection Hrun as <- <-.
  - destruct (exec cfg a) as [[cfg1 evs]|] eqn:Hex; [|discriminate].
    eapply IH; [|exact Hrun]. eapply Inv_exec; eassumption.
Qed.

(** Whatever a schedule reaches from a fresh queue satisfies the
    invariant. *)
Lemma Inv_reachable n acts cfg h :
  run (init n) [] acts = Some (cfg, h) -> Inv cfg h.
Proof. intros Hrun. eapply Inv_run; [apply Inv_init | exact Hrun]. Qed.

Lemma exec_pool_length cfg a cfg' evs :
  exec cfg a = Some (cfg', evs) -> length (pool cfg') = length (pool cfg).
Proof.
  destruct a as [t c | t]; simpl; intros Hex.
  - destruct (pool cfg !! t) as [[|f]|]; try discriminate.
    injection Hex as <- <-. simpl. apply length_insert.
  - destruct (pool cfg !! t) as [[|f]|]; try discriminate.
    destruct (thread_step t f (shared cfg)); try discriminate;
      injection Hex as <- <-; simpl; apply length_insert.
Qed.

Lemma run_pool_length acts : forall cfg h cfg' h',
  run cfg h acts = Some (cfg', h') -> length (pool cfg') = length (pool cfg).
Proof.
  induction acts as [|a acts IH]; intros cfg h cfg' h' Hrun; simpl in Hrun.
  - now injection Hrun as <- <-.
  - destruct (exec cfg a) as [[cfg1 evs]|] eqn:Hex; [|discriminate].
    rewrite (IH _ _ _ _ Hrun). eapply exec_pool_length; eassumption.
Qed.

(** Every statement that returns from Dequeue returns [true]. *)
Lemma Dequeue_Return t pc q e q' :
  Dequeue t pc q = Return e q' -> exists item, e = EvDequeue item true.
Proof.
  destruct pc; simpl; unfold Lock, Wait_suspend, Unlock, Wait_notified; simpl;
    repeat match goal with |- context [match ?x with _ => _ end] => destruct x end;
    try discriminate.
  intros [= <- <-]. eauto.
Qed.

Lemma exec_dequeue_ok cfg a cfg' evs :
  exec cfg a = Some (cfg', evs) -> Forall (fun te => dequeue_ok te.2 = true) evs.
Proof.
  destruct a as [t c | t]; simpl; intros Hex.
  - destruct (pool cfg !! t) as [[|f]|]; try discriminate.
    injection Hex as <- <-. constructor.
  - destruct (pool cfg !! t) as [[|f]|]; try discriminate.
    destruct (thread_step t f (shared cfg)) as [f' q'|e q'| |] eqn:Hst; try discriminate;
      injection Hex as <- <-; [constructor|].
    constructor; [|constructor]. simpl.
    destruct f as [item pc|pc|pc|pc]; simpl in Hst.
    + destruct (Enqueue item pc (shared cfg)) eqn:E; try discriminate.
      injection Hst as <- <-. destruct pc; simpl in E; try discriminate;
        unfold Lock, Unlock in E; destruct (mu (shared cfg)); try discriminate.
      now injection E as <- <-.
    + destruct (Dequeue t pc (shared cfg)) eqn:E; try discriminate.
      injection Hst as <- <-. apply Dequeue_Return in E as [item ->]. reflexivity.
    + destruct (IsEmpty pc (shared cfg)) eqn:E; try discriminate.
      injection Hst as <- <-. destruct pc; simpl in E; try discriminate;
        unfold Lock, Unlock in E; destruct (mu (shared cfg)); try discriminate.
      now injection E as <- <-.
    + destruct (Size pc (shared cfg)) eqn:E; try discriminate.
      injection Hst as <- <-. destruct pc; simpl in E; try discriminate;
        unfold Lock, Unlock in E; destruct (mu (shared cfg)); try discriminate.
      now injection E as <- <-.
Qed.

Lemma run_dequeue_ok acts : forall cfg h cfg' h',
  Forall (fun te => dequeue_ok te.2 = true) h ->
  run cfg h acts = Some (cfg', h') ->
  Forall (fun te => dequeue_ok te.2 = true) h'.
Proof.
  induction acts as [|a acts IH]; intros cfg h cfg' h' Hh Hrun; simpl in Hrun.
  - now injection Hrun as <- <-.
  - destruct (exec cfg a) as [[cfg1 evs]|] eqn:Hex; [|discriminate].
    eapply IH; [|exact Hrun]. apply Forall_app. split; [assumption|].
    eapply exec_dequeue_ok; eassumption.
Qed.

(** C2. The boolean result of Dequeue is always [true]: the only
    statement that returns from Dequeue returns [(item, true)], and so in
    every history a schedule can produce from a new queue, every completed
    Dequeue has its success indicator set. *)
Theorem Dequeue_ok_is_true n acts cfg h :
  run (init n) [] acts = Some (cfg, h) ->
  (forall t pc q e q',
     Dequeue t pc q = Return e q' -> exists item, e = EvDequeue item true) /\
  (forall t item ok, (t, EvDequeue item ok) ∈ h -> ok = true).
Proof.
  intros Hrun. split; [apply Dequeue_Return|].
  intros t item ok Hin.
  pose proof (run_dequeue_ok acts _ _ _ _ (Forall_nil_2 _) Hrun) as Hall.
  rewrite Forall_forall in Hall. exact (Hall _ Hin).
Qed.

Lemma quiescent_lookup p t s :
  forallb idle p = true -> p !! t = Some s -> s = Idle.
Proof.
  revert t. induction p as [|x p IH]; intros [|t] Hq Hl; simpl in *; try discriminate.
  - injection Hl as ->. destruct s; [reflexivity | discriminate].
  - apply andb_true_iff in Hq as [_ Hq]. eauto.
Qed.

(** With no call in flight, nobody holds the mutex. *)
Lemma quiescent_unlocked cfg h :
  Inv cfg h -> quiescent cfg = true -> mu (shared cfg) = false.
Proof.
  intros HI Hq. destruct (mu (shared cfg)) eqn:Hm; [|reflexivity].
  destruct (inv_locked _ _ HI Hm) as (t & s & Ht & Hs).
  rewrite (quiescent_lookup _ _ _ Hq Ht) in Hs. discriminate.
Qed.

(** C5. Size counts the values inserted and not yet removed: after any
    schedule on a new queue, at a moment when no call is in flight, a call
    of Size returns the number of completed Enqueue calls minus the number
    of completed (successful) Dequeue calls, and changes nothing. *)
Theorem Size_is_enqueues_minus_dequeues n acts cfg h t :
  run (init n) [] acts = Some (cfg, h) ->
  quiescent cfg = true ->
  t < n ->
  do_call t CallSize cfg =
    Done (EvSize (Z.of_nat (enqueues h) - Z.of_nat (dequeues h))) cfg.
Proof.
  intros Hrun Hq Ht.
  pose proof (Inv_reachable _ _ _ _ Hrun) as HI.
  pose proof (quiescent_unlocked _ _ HI Hq) as Hm.
  pose proof (inv_balance _ _ HI) as Hbal.
  pose proof (run_pool_length _ _ _ _ _ Hrun) as Hlen.
  unfold quiescent in Hq. rewrite !count_quiescent in Hbal by (reflexivity || assumption).
  simpl in Hlen. rewrite length_replicate in Hlen.
  destruct (lookup_lt_is_Some_2 (pool cfg) t) as [s Hs]; [lia|].
  pose proof (quiescent_lookup _ _ _ Hq Hs) as ->.
  destruct cfg as [[xs m ws] p]; simpl in *. subst m.
  rewrite do_call_Size by exact Hs. do 2 f_equal. lia.
Qed.

(** No statement of a goroutine panics in a configuration that a schedule
    can reach: the mutex is locked whenever it is unlocked, and the slice
    is non-empty whenever its head is read or dropped. *)
Lemma no_panic cfg h t f :
  Inv cfg h ->
  pool cfg !! t = Some (Running f) ->
  thread_step t f (shared cfg) <> Panic.
Proof.
  intros HI Ht.
  pose proof (inv_mutex _ _ HI t _ Ht) as Hm.
  pose proof (inv_nonempty _ _ HI t _ Ht) as Hne.
  destruct (shared cfg) as [xs m ws]; simpl in *.
  destruct f as [item pc|pc|pc|pc]; destruct pc; simpl in *;
    unfold Lock, Unlock, Wait_suspend, Unlock, Wait_notified; simpl;
    try (destruct Hm as [-> _]; [reflexivity|]);
    try specialize (Hne eq_refl);
    try (destruct m); try (destruct xs); try (destruct (inb t ws));
    simpl; congruence.
Qed.

(** The goroutine that holds the mutex can always run its next statement:
    nothing between Lock and Unlock waits, except Wait itself, which
    unlocks. *)
Lemma holder_runs cfg h t f :
  Inv cfg h ->
  pool cfg !! t = Some (Running f) ->
  holds f = true ->
  exists cfg' evs, exec cfg (Step t) = Some (cfg', evs).
Proof.
  intros HI Ht Hf. pose proof (no_panic _ _ _ _ HI Ht) as Hnp.
  simpl. rewrite Ht.
  destruct (thread_step t f (shared cfg)) as [f' q'|e q'| |] eqn:Hst;
    [eauto | eauto | | congruence].
  exfalso. destruct (inv_mutex _ _ HI t _ Ht Hf) as [Hm _].
  destruct (shared cfg) as [xs m ws]; simpl in *. subst m.
  destruct f as [item pc|pc|pc|pc]; destruct pc; simpl in *; try discriminate;
    unfold Unlock, Wait_suspend, Unlock in Hst; simpl in Hst;
    try destruct xs; discriminate.
Qed.

(** A call that returns when run alone is a schedule: the call is
    invoked and its goroutine takes some number of steps. *)
Lemma finish_run k : forall t cfg e cfg' h,
  finish k t cfg = Done e cfg' ->
  exists m, run cfg h (replicate m (Step t)) = Some (cfg', h ++ [(t, e)]).
Proof.
  induction k as [|k IH]; intros t cfg e cfg' h Hfin; simpl in Hfin;
    destruct (pool cfg !! t) as [[|f]|] eqn:Ht; try discriminate;
    destruct (thread_step t f (shared cfg)) as [f' q'|e' q'| |] eqn:Hst;
    try discriminate.
  - injection Hfin as <- <-. exists 1. simpl. now rewrite Ht, Hst.
  - destruct (IH _ _ _ _ h Hfin) as [m Hm]. exists (S m). simpl.
    rewrite Ht, Hst, app_nil_r. exact Hm.
  - injection Hfin as <- <-. exists 1. simpl. now rewrite Ht, Hst.
Qed.

Lemma do_call_run t c cfg e cfg' h :
  do_call t c cfg = Done e cfg' ->
  exists m, run cfg h (Invoke t c :: replicate m (Step t)) = Some (cfg', h ++ [(t, e)]).
Proof.
  unfold do_call. intros Hcall.
  destruct (pool cfg !! t) as [[|f]|] eqn:Ht; try discriminate.
  destruct (finish_run _ _ _ _ _ h Hcall) as [m Hm]. exists m.
  simpl. rewrite Ht, app_nil_r. exact Hm.
Qed.

End Invariant.

(** * Waiting and waking *)

Section Waiting.
Context {V : Type}.
Implicit Types (cfg : config V) (q : ThreadSafeQueue V) (p : list (tstate V)).
Implicit Types (t u : tid) (s : tstate V) (h evs : list (tid * event V)).

(** C7. Dequeue waits while the slice is empty.  In any configuration a
    schedule can reach from a new queue, for a goroutine [t] inside
    Dequeue: at the loop test with an empty slice it enters Wait and
    leaves the slice alone (with a non-empty slice it goes on to read the
    head); entering Wait puts it among the waiters and unlocks the mutex;
    while it is among the waiters it cannot run; once signalled it first
    locks the mutex again (waiting for it if need be) and then is back at
    the loop test, not at the removal; and whenever it is about to read or
    drop the head, the slice is non-empty, so that no statement panics. *)
Theorem Dequeue_waits_while_empty n acts cfg h t :
  run (init n) [] acts = Some (cfg, h) ->
  let q := shared cfg in
  (queue q = [] ->
     thread_step t (InDequeue DeqLoop) q = Goto (InDequeue DeqWait) q) /\
  (queue q <> [] ->
     thread_step t (InDequeue DeqLoop) q = Goto (InDequeue DeqHead) q) /\
  (pool cfg !! t = Some (Running (InDequeue DeqWait)) ->
     thread_step t (InDequeue DeqWait) q =
       Goto (InDequeue DeqParked) (mkQueue (queue q) false (cond q ++ [t]))) /\
  (t ∈ cond q -> thread_step t (InDequeue DeqParked) q = Blocked) /\
  (t ∉ cond q ->
     thread_step t (InDequeue DeqParked) q = Goto (InDequeue DeqRelock) q) /\
  thread_step t (InDequeue DeqRelock) q =
    (if mu q then Blocked
     else Goto (InDequeue DeqLoop) (mkQueue (queue q) true (cond q))) /\
  (forall s, pool cfg !! t = Some s -> taking s = true -> queue q <> []) /\
  (forall f, pool cfg !! t = Some (Running f) -> thread_step t f q <> Panic).
Proof.
  intros Hrun q. pose proof (Inv_reachable _ _ _ _ Hrun) as HI.
  repeat split.
  - intros Hq. simpl. now rewrite Hq.
  - intros Hq. simpl. destruct (queue q); [congruence | reflexivity].
  - intros Ht. destruct (inv_mutex _ _ HI t _ Ht eq_refl) as [Hm _].
    simpl. unfold Wait_suspend, Unlock. simpl. fold q in Hm. now rewrite Hm.
  - intros Hin. apply inb_elem_of in Hin. simpl. unfold Wait_notified. now rewrite Hin.
  - intros Hnin. simpl. unfold Wait_notified.
    destruct (inb t (cond q)) eqn:E; [|reflexivity].
    apply inb_elem_of in E. contradiction.
  - simpl. unfold Lock. now destruct (mu q).
  - intros s Hs Htak. now apply (inv_nonempty _ _ HI t s).
  - intros f Hf. now apply (no_panic _ _ _ _ HI Hf).
Qed.

Lemma inb_cons_tail (u w : tid) ws :
  inb u (w :: ws) = true -> inb u ws = false -> u = w.
Proof.
  unfold inb. simpl. intros H1 H2. rewrite H2, orb_false_r in H1.
  now apply Nat.eqb_eq in H1.
Qed.

(** C8. Enqueue wakes at most one waiter.  A statement of Enqueue run in
    a configuration a schedule can reach: the statements follow one
    another (lock, append, signal, unlock, return), so each call signals
    once; only the signal changes the waiters, and it takes off the oldest
    one; any goroutine that was suspended before the statement and is not
    after it is that oldest waiter, so two goroutines woken by the
    statement are the same; and if somebody was waiting, the signal does
    wake the oldest waiter. *)
Theorem Enqueue_wakes_at_most_one n acts cfg h t item pc cfg' evs :
  run (init n) [] acts = Some (cfg, h) ->
  pool cfg !! t = Some (Running (InEnqueue item pc)) ->
  exec cfg (Step t) = Some (cfg', evs) ->
  let ws := cond (shared cfg) in
  let ws' := cond (shared cfg') in
  pool cfg' !! t =
    Some (match pc with
          | EnqLock => Running (InEnqueue item EnqAppend)
          | EnqAppend => Running (InEnqueue item EnqSignal)
          | EnqSignal => Running (InEnqueue item EnqUnlock)
          | EnqUnlock => Idle
          end) /\
  ws' = (if pc is EnqSignal then tail ws else ws) /\
  (forall u, suspended cfg u = true -> suspended cfg' u = false ->
     pc = EnqSignal /\ head ws = Some u) /\
  (forall u u',
     suspended cfg u = true -> suspended cfg' u = false ->
     suspended cfg u' = true -> suspended cfg' u' = false -> u = u') /\
  (forall w, pc = EnqSignal -> head ws = Some w ->
     suspended cfg w = true /\ suspended cfg' w = false).
Proof.
  intros Hrun Ht Hex ws ws'.
  pose proof (Inv_reachable _ _ _ _ Hrun) as HI.
  pose proof (inv_waiters _ _ HI) as [Hnd Hw].
  pose proof (lookup_lt_Some _ _ _ Ht) as Hlt.
  assert (Hpool : exists s', pool cfg' = <[t := s']> (pool cfg) /\
            s' = match pc with
                 | EnqLock => Running (InEnqueue item EnqAppend)
                 | EnqAppend => Running (InEnqueue item EnqSignal)
                 | EnqSignal => Running (InEnqueue item EnqUnlock)
                 | EnqUnlock => Idle
                 end /\
            ws' = (if pc is EnqSignal then tail ws else ws)).
  { subst ws ws'. simpl in Hex. rewrite Ht in Hex. simpl in Hex.
    destruct cfg as [[xs m wl] p]; simpl in *.
    destruct pc; simpl in Hex; unfold Lock, Unlock in Hex; simpl in Hex;
      try destruct m; try discriminate; injection Hex as <- <-; simpl; eauto. }
  destruct Hpool as (s' & Hp' & Hs' & Hws).
  assert (Hother : forall u, u <> t -> suspended cfg' u = match pool cfg !! u with
            | Some (Running (InDequeue DeqParked)) => inb u ws'
            | _ => false end).
  { intros u Hu. unfold suspended. rewrite Hp', list_lookup_insert_ne by congruence.
    reflexivity. }
  assert (Hwoken : forall u, suspended cfg u = true -> suspended cfg' u = false ->
            pc = EnqSignal /\ head ws = Some u).
  { intros u Hu Hu'.
    assert (Hne : u <> t).
    { intros ->. unfold suspended in Hu. rewrite Ht in Hu. discriminate. }
    rewrite (Hother u Hne) in Hu'. unfold suspended in Hu. fold ws in Hu.
    destruct (pool cfg !! u) as [[|[|[]| |]]|]; try discriminate.
    rewrite Hws in Hu'. destruct pc; try congruence.
    split; [reflexivity|]. destruct ws as [|w wl]; simpl in *; [discriminate|].
    f_equal. symmetry. now apply inb_cons_tail with wl. }
  split; [|split; [|split; [|split]]].
  - rewrite Hp', list_lookup_insert_eq by assumption. now rewrite Hs'.
  - exact Hws.
  - exact Hwoken.
  - intros u u' H1 H2 H3 H4.
    destruct (Hwoken u H1 H2) as [_ E1]. destruct (Hwoken u' H3 H4) as [_ E2].
    congruence.
  - intros w -> Hhd.
    assert (Hin : w ∈ ws) by (destruct ws; simpl in Hhd; [discriminate|];
                               injection Hhd as ->; apply elem_of_cons; now left).
    pose proof (Hw _ Hin) as Hpw.
    assert (Hne : w <> t) by (intros ->; congruence).
    split.
    + unfold suspended. rewrite Hpw. now apply inb_elem_of.
    + rewrite (Hother w Hne), Hpw, Hws.
      destruct (inb w (tail ws)) eqn:E; [|reflexivity].
      apply inb_elem_of in E. fold ws in Hnd.
      destruct ws as [|w0 wl]; simpl in *; [discriminate|].
      injection Hhd as ->. apply NoDup_cons in Hnd as [Hnin _]. contradiction.
Qed.

End Waiting.

(** * Worked examples *)

(** Four values of four different types, inserted by two goroutines and
    removed by the same two, come back in order and unchanged. *)
Lemma Dequeue_returns_in_Enqueue_order_witness :
  do_calls (init 2)
    [(0, CallEnqueue (Int 42)); (1, CallEnqueue (Str "hello"%string));
     (0, CallEnqueue (Float64 0x40091EB851EB851F)); (1, CallEnqueue (Boolean true));
     (1, CallDequeue); (0, CallDequeue); (1, CallDequeue); (0, CallDequeue)] =
  Some ([EvEnqueue (Int 42); EvEnqueue (Str "hello"%string);
         EvEnqueue (Float64 0x40091EB851EB851F); EvEnqueue (Boolean true);
         EvDequeue (Int 42) true; EvDequeue (Str "hello"%string) true;
         EvDequeue (Float64 0x40091EB851EB851F) true;
         EvDequeue (Boolean true) true],
        init 2).
Proof.
  apply (Dequeue_returns_in_Enqueue_order (init 2)
           [(0, Int 42); (1, Str "hello"%string);
            (0, Float64 0x40091EB851EB851F); (1, Boolean true)]
           [1; 0; 1; 0]).
  - reflexivity.
  - reflexivity.
  - repeat constructor.
  - reflexivity.
Defined.

Lemma Dequeue_ok_is_true_witness :
  run (init 2) [] schedule_in_out =
    Some (init 2, [(0, EvEnqueue (Boolean true)); (1, EvDequeue (Boolean true) true)]) /\
  forall t item ok,
    (t, EvDequeue item ok) ∈
      [(0, EvEnqueue (Boolean true)); (1, EvDequeue (Boolean true) true)] ->
    ok = true.
Proof.
  split; [reflexivity|].
  apply (Dequeue_ok_is_true 2 schedule_in_out (init 2)
           [(0, EvEnqueue (Boolean true)); (1, EvDequeue (Boolean true) true)]).
  reflexivity.
Defined.

Lemma NewThreadSafeQueue_is_empty_witness :
  1 < 2 /\
  do_call 1 CallIsEmpty (init (V := any) 2) = Done (EvIsEmpty true) (init 2) /\
  do_call 1 CallSize (init (V := any) 2) = Done (EvSize 0) (init 2).
Proof.
  split; [lia|].
  apply (NewThreadSafeQueue_is_empty (V := any) 2 1). lia.
Defined.

(** The nil interface value is appended like any other. *)
Lemma Enqueue_appends_at_tail_witness :
  do_call 0 (CallEnqueue Nil) two_values =
  Done (EvEnqueue Nil)
       (mkConfig (mkQueue [Int 1; Str "x"%string; Nil] false []) [Idle; Idle]).
Proof.
  apply (Enqueue_appends_at_tail two_values 0 Nil); reflexivity.
Defined.

(** Two completed inserts and one completed removal: Size returns 1. *)
Lemma Size_is_enqueues_minus_dequeues_witness :
  run (init 3) [] schedule_handoff =
    Some (mkConfig (mkQueue [Str "a"%string] false []) [Idle; Idle; Idle],
          [(1, EvEnqueue (Int 42)); (2, EvEnqueue (Str "a"%string));
           (0, EvDequeue (Int 42) true)]) /\
  do_call 0 CallSize (mkConfig (mkQueue [Str "a"%string] false []) [Idle; Idle; Idle]) =
    Done (EvSize (2 - 1))
         (mkConfig (mkQueue [Str "a"%string] false []) [Idle; Idle; Idle]).
Proof.
  split; [reflexivity|].
  apply (Size_is_enqueues_minus_dequeues 3 schedule_handoff _
           [(1, EvEnqueue (Int 42)); (2, EvEnqueue (Str "a"%string));
            (0, EvDequeue (Int 42) true)] 0);
    [reflexivity | reflexivity | lia].
Defined.

Lemma IsEmpty_iff_Size_zero_witness :
  exists b n,
    do_call 1 CallIsEmpty two_values = Done (EvIsEmpty b) two_values /\
    do_call 1 CallSize two_values = Done (EvSize n) two_values /\
    (b = true <-> n = 0%Z) /\
    (b = false <-> queue (shared two_values) <> []).
Proof.
  apply (IsEmpty_iff_Size_zero two_values 1); reflexivity.
Defined.

(** The consumer that found the slice empty unlocks the mutex and joins
    the waiters, where it cannot run. *)
Lemma Dequeue_waits_while_empty_witness :
  run (init 1) [] schedule_empty =
    Some (mkConfig (mkQueue [] true []) [Running (InDequeue DeqWait)], []) /\
  thread_step 0 (InDequeue DeqWait) (mkQueue (V := any) [] true []) =
    Goto (InDequeue DeqParked) (mkQueue [] false [0]).
Proof.
  split; [reflexivity|].
  pose proof (Dequeue_waits_while_empty 1 schedule_empty
                (mkConfig (mkQueue [] true []) [Running (InDequeue DeqWait)])
                [] 0 eq_refl) as H.
  simpl in H. destruct H as (_ & _ & H & _). apply H. reflexivity.
Defined.

(** With goroutines 0 and 1 waiting, the signal wakes goroutine 0 and
    leaves goroutine 1 suspended. *)
Lemma Enqueue_wakes_at_most_one_witness :
  let cfg := mkConfig (mkQueue [Nil] true [0; 1])
               [Running (InDequeue DeqParked); Running (InDequeue DeqParked);
                Running (InEnqueue Nil EnqSignal)] in
  let cfg' := mkConfig (mkQueue [Nil] true [1])
                [Running (InDequeue DeqParked); Running (InDequeue DeqParked);
                 Running (InEnqueue Nil EnqUnlock)] in
  run (init 3) [] schedule_two_waiters = Some (cfg, []) /\
  exec cfg (Step 2) = Some (cfg', []) /\
  cond (shared cfg') = tail (cond (shared cfg)) /\
  (forall u, suspended cfg u = true -> suspended cfg' u = false ->
     EnqSignal = EnqSignal /\ head (cond (shared cfg)) = Some u) /\
  suspended cfg' 1 = true.
Proof.
  intros cfg cfg'. split; [reflexivity|]. split; [reflexivity|].
  pose proof (Enqueue_wakes_at_most_one 3 schedule_two_waiters cfg [] 2 Nil
                EnqSignal cfg' [] eq_refl eq_refl eq_refl) as H.
  destruct H as (_ & H1 & H2 & _).
  split; [exact H1|]. split; [exact H2 | reflexivity].
Defined.

Lemma Dequeue_removes_head_witness :
  do_call 0 CallDequeue two_values =
    Done (EvDequeue (Int 1) true)
         (mkConfig (mkQueue [Str "x"%string] false []) [Idle; Idle]) /\
  exists n,
    do_call 0 CallSize two_values = Done (EvSize n) two_values /\
    do_call 0 CallSize (mkConfig (mkQueue [Str "x"%string] false []) [Idle; Idle]) =
      Done (EvSize (n - 1)) (mkConfig (mkQueue [Str "x"%string] false []) [Idle; Idle]).
Proof.
  apply (Dequeue_removes_head two_values 0 (Int 1) [Str "x"%string]); reflexivity.
Defined.

Lemma IsEmpty_Size_observe_only_witness :
  (exists b, do_call 1 CallIsEmpty two_values = Done (EvIsEmpty b) two_values) /\
  (exists n, do_call 1 CallSize two_values = Done (EvSize n) two_values).
Proof.
  destruct (IsEmpty_Size_observe_only two_values 1 eq_refl eq_refl)
    as (H1 & H2 & _).
  split; assumption.
Defined.

(** The racing wake-up: the signalled consumer finds the slice empty at
    its second loop test and waits again, instead of reading a head that
    is not there. *)
Example racing_wakeup_waits_again :
  run (init 3) [] schedule_race =
  Some (mkConfig (mkQueue [] false [0])
                 [Running (InDequeue DeqParked); Idle; Idle],
        [(1, EvEnqueue (Int 7)); (2, EvDequeue (Int 7) true)]).
Proof. reflexivity. Qed.

(** * Interleaved goroutines: further properties *)

Section Interleaving.
Context {V : Type}.
Implicit Types (cfg : config V) (q : ThreadSafeQueue V) (p : list (tstate V)).
Implicit Types (t u : tid) (s : tstate V) (h evs : list (tid * event V)).

(** Every move of [exec] is one of the rules of [transition]. *)
Lemma exec_transition cfg a cfg' evs :
  exec cfg a = Some (cfg', evs) ->
  exists t s s',
    pool cfg !! t = Some s /\
    pool cfg' = <[t := s']> (pool cfg) /\
    transition t (shared cfg) s (shared cfg') s' evs.
Proof.
  destruct cfg as [[xs m ws] p]. destruct a as [t c | t]; simpl; intros Hex.
  - destruct (p !! t) as [[|f]|] eqn:Ht; try discriminate.
    injection Hex as <- <-. exists t, Idle, (Running (entry c)).
    repeat split; [assumption | constructor].
  - destruct (p !! t) as [[|f]|] eqn:Ht; try discriminate.
    exists t, (Running f).
    destruct f as [item pc|pc|pc|pc]; destruct pc; simpl in Hex;
      unfold Lock, Unlock, Wait_suspend, Signal, Unlock, Wait_notified in Hex;
      simpl in Hex;
      try (destruct m; simpl in Hex); try discriminate;
      try (destruct xs as [|x xs]; simpl in Hex); try discriminate;
      try (destruct (inb t ws) eqn:Hin; simpl in Hex); try discriminate;
      injection Hex as <- <-; eexists; simpl;
      (repeat split; [assumption | now constructor]).
Qed.

(** Every rule of [transition] is a move of [exec]. *)
Lemma transition_exec cfg t s q' s' evs :
  pool cfg !! t = Some s ->
  transition t (shared cfg) s q' s' evs ->
  exists a, exec cfg a = Some (mkConfig q' (<[t := s']> (pool cfg)), evs).
Proof.
  destruct cfg as [q p]; simpl. intros Ht Htr.
  destruct Htr as [q c| | | | | | | | | | | | | | | | | | | ];
    [exists (Invoke t c) | exists (Step t) ..]; simpl; rewrite Ht; simpl;
    unfold Wait_notified; simpl; rewrite ?H; reflexivity.
Qed.

(** X1. Mutual exclusion.  In every configuration a schedule can reach from a
    new queue, two goroutines that are both between Lock and Unlock are
    the same goroutine, and the mutex is locked exactly when some
    goroutine is there. *)
Theorem mutual_exclusion n acts cfg h :
  run (init n) [] acts = Some (cfg, h) ->
  (forall t u f g,
     pool cfg !! t = Some (Running f) -> pool cfg !! u = Some (Running g) ->
     holds f = true -> holds g = true -> t = u) /\
  (mu (shared cfg) = true <->
   exists t f, pool cfg !! t = Some (Running f) /\ holds f = true).
Proof.
  intros Hrun. pose proof (Inv_reachable _ _ _ _ Hrun) as HI. split.
  - intros t u f g Ht Hu Hf Hg.
    destruct (inv_mutex _ _ HI u _ Hu Hg) as [_ Huniq].
    now apply (Huniq t (Running f)).
  - split.
    + intros Hm. destruct (inv_locked _ _ HI Hm) as (t & [|f] & Ht & Hs);
        [discriminate | eauto].
    + intros (t & f & Ht & Hf). now destruct (inv_mutex _ _ HI t _ Ht Hf).
Qed.

(** X2. No deadlock on the mutex.  In a reachable configuration, as long as
    some goroutine is inside a call and is not suspended in Wait, some
    goroutine can run its next statement: the goroutine itself, or the
    one that holds the mutex. *)
Theorem some_goroutine_can_run n acts cfg h t f :
  run (init n) [] acts = Some (cfg, h) ->
  pool cfg !! t = Some (Running f) ->
  suspended cfg t = false ->
  exists u cfg' evs, exec cfg (Step u) = Some (cfg', evs).
Proof.
  intros Hrun Ht Hsus. pose proof (Inv_reachable _ _ _ _ Hrun) as HI.
  destruct (mu (shared cfg)) eqn:Hm.
  - destruct (inv_locked _ _ HI Hm) as (u & [|g] & Hu & Hg); [discriminate|].
    exists u. now apply (holder_runs _ _ _ _ HI Hu).
  - exists t. simpl. rewrite Ht.
    assert (Hf : holds f = false).
    { destruct (holds f) eqn:E; [|reflexivity].
      destruct (inv_mutex _ _ HI t _ Ht E). congruence. }
    unfold suspended in Hsus. rewrite Ht in Hsus.
    destruct (shared cfg) as [xs m ws]; simpl in *. subst m.
    destruct f as [item pc|pc|pc|pc]; destruct pc; simpl in *; try discriminate;
      unfold Lock, Wait_notified; simpl; rewrite ?Hsus; simpl; eauto.
Qed.

(** A goroutine that does not hold the mutex claims nothing about the
    slice. *)
Lemma local_not_holding s (xs : list V) : holding s = false -> local s xs.
Proof.
  destruct s as [|[item pc|pc|pc|pc]]; try destruct pc; simpl;
    intros; (discriminate || exact I).
Qed.

Ltac step_cases Hex cfg cfg' :=
  let t := fresh "t" in let s := fresh "s" in let s' := fresh "s'" in
  let Ht := fresh "Ht" in let Hp := fresh "Hp" in let Htr := fresh "Htr" in
  let q := fresh "q" in let p := fresh "p" in
  let q' := fresh "q'" in let p' := fresh "p'" in
  apply exec_transition in Hex as (t & s & s' & Ht & Hp & Htr);
  destruct cfg as [q p], cfg' as [q' p']; simpl in *; subst p'.

Lemma Loc_init n : Loc (init (V := V) n).
Proof. intros t s Ht. apply lookup_replicate in Ht as [-> _]. exact I. Qed.

Lemma Loc_exec cfg h a cfg' evs :
  Inv cfg h -> Loc cfg -> exec cfg a = Some (cfg', evs) -> Loc cfg'.
Proof.
  intros HI HL Hex. step_cases Hex cfg cfg'.
  intros u su Hu. simpl in *.
  pose proof (HL _ _ Ht) as Hs. simpl in Hs.
  apply lookup_insert_cases in Hu as [[-> ->] | [Hne Hu]].
  - inversion Htr; subst; simpl in *; try exact I; try reflexivity;
      try discriminate; try assumption.
    + destruct c; exact I.
    + apply last_snoc.
  - pose proof (HL _ _ Hu) as Hsu. simpl in Hsu.
    assert (Hq : queue q' = queue q \/ holding s = true)
      by (inversion Htr; subst; simpl; auto).
    destruct Hq as [-> | Hhold]; [assumption|].
    apply local_not_holding.
    destruct (holding su) eqn:E; [|reflexivity].
    destruct (inv_mutex _ _ HI _ _ Ht Hhold) as [_ Huniq].
    exfalso. apply Hne. now apply (Huniq u su).
Qed.

Lemma enqueued_app h evs : enqueued (h ++ evs) = enqueued h ++ enqueued evs.
Proof.
  induction h as [|[t [item|item ok|b|n]] h IH]; simpl; rewrite ?IH; reflexivity.
Qed.

Lemma dequeued_app h evs : dequeued (h ++ evs) = dequeued h ++ dequeued evs.
Proof.
  induction h as [|[t [item|item ok|b|n]] h IH]; simpl; rewrite ?IH; reflexivity.
Qed.

Lemma Fifo_init n : Fifo (init (V := V) n) [].
Proof.
  split; [reflexivity|].
  intros t s Ht. apply lookup_replicate in Ht as [-> _]. discriminate.
Qed.

Lemma Fifo_exec cfg h a cfg' evs :
  Inv cfg h -> Loc cfg -> Fifo cfg h ->
  exec cfg a = Some (cfg', evs) -> Fifo cfg' (h ++ evs).
Proof.
  intros HI HL [HF1 HF2] Hex. step_cases Hex cfg cfg'.
  pose proof (HL _ _ Ht) as Hloc.
  pose proof (inv_mutex _ _ HI _ _ Ht) as Hmx.
  pose proof (HF2 _ _ Ht) as HFt.
  unfold Fifo. simpl in *. rewrite enqueued_app, dequeued_app.
  split.
  - intros Hm'.
    inversion Htr; subst; simpl in *; try discriminate;
      try (destruct Hmx as [Hmx _]; [reflexivity|]; try discriminate);
      try specialize (HFt eq_refl);
      rewrite ?app_nil_r in *; simpl in *; rewrite <- ?app_assoc; simpl; auto;
      congruence.
  - intros u su Hu Hhold.
    apply lookup_insert_cases in Hu as [[-> ->] | [Hne Hu]].
    + inversion Htr; subst; simpl in *; try discriminate;
        try specialize (HFt eq_refl);
        try specialize (HF1 eq_refl);
        rewrite ?app_nil_r in *; simpl in *; auto.
      * destruct c; discriminate.
      * rewrite app_assoc. now rewrite HFt.
      * injection Hloc as ->. now rewrite <- HFt.
    + destruct (inv_mutex _ _ HI _ _ Hu Hhold) as [Hm Huniq].
      assert (Hs : holding s = false).
      { destruct (holding s) eqn:E; [|reflexivity].
        exfalso. apply Hne. symmetry. now apply (Huniq t s). }
      specialize (HF2 _ _ Hu Hhold).
      inversion Htr; subst; simpl in *; try discriminate;
        rewrite ?app_nil_r; assumption.
Qed.

(** Distinct goroutines that all satisfy [P] are at most as many as the
    goroutines of the pool that satisfy [P]. *)
Lemma waiters_le_count (P : tstate V -> bool) (ws : list tid) : forall p,
  P Idle = false ->
  NoDup ws ->
  (forall u, u ∈ ws -> exists s, p !! u = Some s /\ P s = true) ->
  length ws <= count P p.
Proof.
  induction ws as [|u ws IH]; intros p HP Hnd Hall; simpl; [lia|].
  apply NoDup_cons in Hnd as [Hnin Hnd].
  destruct (Hall u) as (s & Hs & HPs); [apply elem_of_cons; now left|].
  pose proof (count_insert P p u s Idle Hs) as Hc. rewrite HP, HPs in Hc. simpl in Hc.
  assert (length ws <= count P (<[u := Idle]> p)); [|lia].
  apply IH; try assumption.
  intros v Hv. destruct (Hall v) as (sv & Hsv & HPv); [apply elem_of_cons; now right|].
  exists sv. split; [|assumption].
  rewrite list_lookup_insert_ne; [assumption|]. intros ->. contradiction.
Qed.



Lemma Wake_init n : Wake (init (V := V) n).
Proof. intros H. now contradiction H. Qed.

Lemma Wake_exec cfg h a cfg' evs :
  Inv cfg h -> Loc cfg -> Wake cfg ->
  exec cfg a = Some (cfg', evs) -> Wake cfg'.
Proof.
  intros HI HL HW Hex.
  pose proof (Inv_exec _ _ _ _ _ HI Hex) as HI'.
  pose proof (inv_waiters _ _ HI') as [Hnd' Hw'].
  step_cases Hex cfg cfg'.
  pose proof (HL _ _ Ht) as Hloc.
  pose proof (count_insert pending p t s s' Ht) as Hc.
  unfold Wake in *. simpl in *.
  inversion Htr; subst; simpl in *;
    try (intros Hne; specialize (HW Hne); rewrite ?length_app; simpl; lia).
  - destruct ws as [|w ws]; simpl in *; [intros Hne; now contradiction Hne|].
    intros Hne. assert (Hne' : w :: ws <> []) by discriminate.
    specialize (HW Hne'). simpl in HW. lia.
  - intros _. subst xs. simpl. apply waiters_le_count; [reflexivity | assumption |].
    intros u Hu. eexists. split; [apply Hw'; exact Hu | reflexivity].
Qed.

Lemma more_run acts : forall cfg h cfg' h',
  Inv cfg h -> Loc cfg -> Fifo cfg h -> Wake cfg ->
  run cfg h acts = Some (cfg', h') ->
  Loc cfg' /\ Fifo cfg' h' /\ Wake cfg'.
Proof.
  induction acts as [|a acts IH]; intros cfg h cfg' h' HI HL HF HW Hrun;
    simpl in Hrun.
  - injection Hrun as <- <-. auto.
  - destruct (exec cfg a) as [[cfg1 evs]|] eqn:Hex; [|discriminate].
    apply (IH cfg1 (h ++ evs)); try assumption.
    + eapply Inv_exec; eassumption.
    + eapply Loc_exec; eassumption.
    + eapply Fifo_exec; eassumption.
    + eapply Wake_exec; eassumption.
Qed.

Lemma more_reachable n acts cfg h :
  run (init n) [] acts = Some (cfg, h) ->
  Loc cfg /\ Fifo cfg h /\ Wake cfg.
Proof.
  apply more_run; [apply Inv_init | apply Loc_init | apply Fifo_init | apply Wake_init].
Qed.

(** X3. What a call has read under the mutex stays true until it unlocks.
    In every reachable configuration: the number Size is about to return
    is the length of the slice, the boolean IsEmpty is about to return
    tells whether the slice is empty, the value Dequeue has read at index
    0 is still the head when the slice is cut, the value Enqueue has
    appended is still the last one when it signals and unlocks, and a
    Dequeue that is about to wait has an empty slice before it. *)
Theorem reads_stay_accurate n acts cfg h t :
  run (init n) [] acts = Some (cfg, h) ->
  let xs := queue (shared cfg) in
  (forall k, pool cfg !! t = Some (Running (InSize (SizeReturn k))) ->
     k = Z.of_nat (length xs)) /\
  (forall b, pool cfg !! t = Some (Running (InIsEmpty (EmpReturn b))) ->
     b = (length xs =? 0)%nat) /\
  (forall item, pool cfg !! t = Some (Running (InDequeue (DeqSlice item))) ->
     head xs = Some item) /\
  (forall item pc, pool cfg !! t = Some (Running (InEnqueue item pc)) ->
     pc = EnqSignal \/ pc = EnqUnlock -> last xs = Some item) /\
  (pool cfg !! t = Some (Running (InDequeue DeqWait)) -> xs = []).
Proof.
  intros Hrun xs. destruct (more_reachable _ _ _ _ Hrun) as (HL & _ & _).
  repeat split.
  - intros k Ht. exact (HL _ _ Ht).
  - intros b Ht. exact (HL _ _ Ht).
  - intros item Ht. exact (HL _ _ Ht).
  - intros item pc Ht [-> | ->]; exact (HL _ _ Ht).
  - intros Ht. exact (HL _ _ Ht).
Qed.



End Interleaving.

(** * Programs: what each goroutine calls, and what comes back *)

Section Programs.
Context {V : Type}.
Implicit Types (cfg : config V) (q : ThreadSafeQueue V) (p : list (tstate V)).
Implicit Types (t u : tid) (s : tstate V) (h evs : list (tid * event V)).
Implicit Types (acts : list (action V)) (cs : list (call V)).

Lemma completed_app u h evs : completed u (h ++ evs) = completed u h ++ completed u evs.
Proof.
  induction h as [|[t e] h IH]; simpl; [reflexivity|].
  destruct (Nat.eqb t u); simpl; now rewrite IH.
Qed.

Lemma enqueue_items_app cs cs' :
  enqueue_items (cs ++ cs') = enqueue_items cs ++ enqueue_items cs'.
Proof.
  induction cs as [|[item| | |] cs IH]; simpl; rewrite ?IH; reflexivity.
Qed.

Lemma call_of_entry (c : call V) : call_of_frame (entry c) = c.
Proof. now destruct c. Qed.

(** A statement never changes which call its goroutine is in, and a
    return completes that call. *)
Lemma thread_step_call t f q :
  match thread_step t f q with
  | Goto f' _ => call_of_frame f' = call_of_frame f
  | Return e _ => call_of_event e = call_of_frame f
  | _ => True
  end.
Proof.
  destruct q as [xs m ws].
  destruct f as [item pc|pc|pc|pc]; destruct pc; simpl;
    unfold Lock, Unlock, Wait_suspend, Unlock, Wait_notified; simpl;
    try destruct m; try destruct xs; try destruct (inb t ws);
    simpl; reflexivity || exact I.
Qed.

Lemma current_insert_eq t s p :
  t < length p -> current t (<[t := s]> p) = in_call s.
Proof. intros H. unfold current. now rewrite list_lookup_insert_eq. Qed.

Lemma current_insert_ne t u s p :
  t <> u -> current u (<[t := s]> p) = current u p.
Proof. intros H. unfold current. now rewrite list_lookup_insert_ne. Qed.

Lemma exec_calls cfg a cfg' evs u :
  exec cfg a = Some (cfg', evs) ->
  completed u evs ++ current u (pool cfg') =
  current u (pool cfg) ++ invoked u [a].
Proof.
  destruct a as [t c | t]; simpl; intros Hex.
  - destruct (pool cfg !! t) as [[|f]|] eqn:Ht; try discriminate.
    injection Hex as <- <-. simpl.
    pose proof (lookup_lt_Some _ _ _ Ht) as Hlt.
    destruct (Nat.eqb_spec t u) as [<- | Hne].
    + rewrite current_insert_eq by assumption. unfold current. rewrite Ht.
      simpl. now rewrite call_of_entry.
    + rewrite current_insert_ne by assumption. now rewrite app_nil_r.
  - destruct (pool cfg !! t) as [[|f]|] eqn:Ht; try discriminate.
    pose proof (lookup_lt_Some _ _ _ Ht) as Hlt.
    pose proof (thread_step_call t f (shared cfg)) as Hcall.
    destruct (thread_step t f (shared cfg)) as [f' q'|e q'| |]; try discriminate;
      injection Hex as <- <-; simpl; rewrite app_nil_r.
    + destruct (Nat.eq_dec t u) as [<- | Hne].
      * rewrite current_insert_eq by assumption. unfold current. rewrite Ht.
        simpl. now rewrite Hcall.
      * now rewrite current_insert_ne.
    + destruct (Nat.eqb_spec t u) as [<- | Hne].
      * rewrite current_insert_eq by assumption. unfold current. rewrite Ht.
        simpl. now rewrite Hcall.
      * now rewrite current_insert_ne.
Qed.

Lemma run_calls acts : forall cfg h cfg' h' u,
  run cfg h acts = Some (cfg', h') ->
  completed u h' ++ current u (pool cfg') =
  completed u h ++ current u (pool cfg) ++ invoked u acts.
Proof.
  induction acts as [|a acts IH]; intros cfg h cfg' h' u Hrun; simpl in Hrun.
  - injection Hrun as <- <-. simpl. now rewrite app_nil_r.
  - destruct (exec cfg a) as [[cfg1 evs]|] eqn:Hex; [|discriminate].
    rewrite (IH _ _ _ _ u Hrun), completed_app, <- app_assoc.
    rewrite (app_assoc (completed u evs)), (exec_calls _ _ _ _ u Hex).
    rewrite <- app_assoc. do 2 f_equal.
    destruct a as [t c | t]; simpl; [destruct (Nat.eqb t u)|]; reflexivity.
Qed.

(** Each goroutine's calls complete in the order in which it makes them:
    in every reachable configuration, the calls of goroutine [u] that the
    history records as completed, followed by the call it is in, are the
    calls it has started. *)
Lemma calls_in_program_order n acts cfg h u :
  run (init n) [] acts = Some (cfg, h) ->
  completed u h ++ current u (pool cfg) = invoked u acts.
Proof.
  intros Hrun. rewrite (run_calls _ _ _ _ _ u Hrun). simpl.
  unfold current. destruct (replicate n Idle !! u) as [s|] eqn:E; [|reflexivity].
  apply lookup_replicate in E as [-> _]. reflexivity.
Qed.

Lemma enqueued_of_producer h t :
  (forall u, u <> t -> enqueue_items (completed u h) = []) ->
  enqueued h = enqueue_items (completed t h).
Proof.
  induction h as [|[u e] h IH]; intros Hothers; simpl; [reflexivity|].
  assert (Hrest : forall v, v <> t -> enqueue_items (completed v h) = []).
  { intros v Hv. specialize (Hothers v Hv). simpl in Hothers.
    destruct (Nat.eqb u v); [|assumption].
    destruct e; simpl in Hothers; (discriminate || assumption). }
  specialize (IH Hrest).
  destruct (Nat.eqb_spec u t) as [-> | Hne].
  - destruct e; simpl; now rewrite IH.
  - specialize (Hothers u Hne). simpl in Hothers. rewrite Nat.eqb_refl in Hothers.
    destruct e; simpl in Hothers; (discriminate || assumption).
Qed.

(** With a single producer [t], what has been handed out is the beginning
    of what [t] has put in. *)
Lemma dequeued_prefix_of_producer n acts cfg h t :
  run (init n) [] acts = Some (cfg, h) ->
  (forall u, u <> t -> enqueue_items (invoked u acts) = []) ->
  dequeued h `prefix_of` enqueue_items (invoked t acts).
Proof.
  intros Hrun Hothers.
  pose proof (Inv_reachable _ _ _ _ Hrun) as HI.
  destruct (more_reachable _ _ _ _ Hrun) as (_ & [HF1 HF2] & _).
  assert (Hlog : forall u, enqueue_items (completed u h) ++
                           enqueue_items (current u (pool cfg)) =
                           enqueue_items (invoked u acts)).
  { intros u. rewrite <- enqueue_items_app. f_equal.
    now apply calls_in_program_order with n. }
  assert (Henq : enqueued h = enqueue_items (completed t h)).
  { apply enqueued_of_producer. intros u Hu.
    pose proof (Hlog u) as E. rewrite (Hothers u Hu) in E.
    now apply app_eq_nil in E as [E _]. }
  destruct (mu (shared cfg)) eqn:Hm.
  - destruct (inv_locked _ _ HI Hm) as (u & s & Hu & Hs).
    specialize (HF2 u s Hu Hs).
    assert (Hpre : (enqueued h ++ appending s) `prefix_of` enqueue_items (invoked t acts)).
    { destruct (appending s) as [|item l] eqn:Ha.
      - rewrite app_nil_r, Henq, <- (Hlog t). now apply prefix_app_r.
      - assert (Hcur : enqueue_items (current u (pool cfg)) = appending s).
        { unfold current. rewrite Hu.
          destruct s as [|[it pc|pc|pc|pc]]; try discriminate.
          destruct pc; try discriminate; reflexivity. }
        assert (u = t) as ->.
        { destruct (Nat.eq_dec u t) as [|Hne]; [assumption|].
          pose proof (Hlog u) as E. rewrite (Hothers u Hne), Hcur, Ha in E.
          now apply app_eq_nil in E as [_ E]. }
        rewrite <- Ha, <- Hcur, Henq, (Hlog t). reflexivity. }
    etransitivity; [|exact Hpre]. rewrite <- HF2. now apply prefix_app_r.
  - specialize (HF1 eq_refl). rewrite <- (Hlog t), <- Henq, <- HF1.
    rewrite <- app_assoc. now apply prefix_app_r.
Qed.


(** X7. Dequeue never returns on a queue nobody inserts into: in a schedule
    in which no goroutine calls Enqueue, no Dequeue call ever completes,
    however long the schedule. *)
Theorem Dequeue_never_returns_without_Enqueue n acts cfg h :
  run (init n) [] acts = Some (cfg, h) ->
  (forall u, enqueue_items (invoked u acts) = []) ->
  dequeued h = [] /\ dequeues h = 0.
Proof.
  intros Hrun Hnone.
  pose proof (dequeued_prefix_of_producer n acts cfg h 0 Hrun (fun u _ => Hnone u)) as Hpre.
  rewrite (Hnone 0) in Hpre. apply prefix_nil_inv in Hpre.
  split; [assumption|].
  clear -Hpre. induction h as [|[t [item|item [|]|b|k]] h IH]; simpl in *;
    try discriminate; auto.
Qed.

End Programs.

(** * The example programs *)

Lemma enqueue_items_prefix {V : Type} (cs cs' : list (call V)) :
  cs `prefix_of` cs' -> enqueue_items cs `prefix_of` enqueue_items cs'.
Proof. intros [k ->]. rewrite enqueue_items_app. now apply prefix_app_r. Qed.

Lemma enqueue_items_consumer (cs : list (call any)) :
  cs `prefix_of` consumer -> enqueue_items cs = [].
Proof.
  intros H. apply enqueue_items_prefix in H. now apply prefix_nil_inv in H.
Qed.

(** X8. The producer/consumer program: whatever the scheduler does, and
    however far the two goroutines have got (the program may even end
    before they finish), the values the consumer has received and printed
    so far are 0, 1, 2, ... in that order, without gaps; once it has
    received ten values they are exactly 0 to 9. *)
Theorem main_consumer_receives_in_order n acts cfg h :
  run (init n) [] acts = Some (cfg, h) ->
  (forall u, invoked u acts `prefix_of` main u) ->
  dequeued h `prefix_of` ((fun i => Int (Z.of_nat i)) <$> seq 0 10) /\
  (length (dequeued h) = 10 ->
   dequeued h = (fun i => Int (Z.of_nat i)) <$> seq 0 10).
Proof.
  intros Hrun Hprog.
  assert (Hpre : dequeued h `prefix_of` ((fun i => Int (Z.of_nat i)) <$> seq 0 10)).
  { etransitivity.
    - apply (dequeued_prefix_of_producer n acts cfg h 0 Hrun).
      intros u Hu. specialize (Hprog u).
      destruct u as [|[|u]]; [contradiction | now apply enqueue_items_consumer |].
      simpl in Hprog. apply prefix_nil_inv in Hprog. now rewrite Hprog.
    - apply (enqueue_items_prefix _ _ (Hprog 0)). }
  split; [exact Hpre|].
  intros Hlen. destruct Hpre as [k Hk].
  assert (length k = 0) as Hk0.
  { apply (f_equal length) in Hk. rewrite length_app, Hlen in Hk.
    simpl in Hk. lia. }
  destruct k; [|discriminate]. now rewrite app_nil_r in Hk.
Qed.

(** * Worked examples, continued *)

Lemma mutual_exclusion_witness :
  run (init 3) [] schedule_two_waiters =
    Some (mkConfig (mkQueue [Nil] true [0; 1])
            [Running (InDequeue DeqParked); Running (InDequeue DeqParked);
             Running (InEnqueue Nil EnqSignal)], []) /\
  exists t f,
    [Running (InDequeue DeqParked); Running (InDequeue DeqParked);
     Running (InEnqueue Nil EnqSignal)] !! t = Some (Running f) /\
    holds f = true.
Proof.
  split; [reflexivity|].
  apply (mutual_exclusion 3 schedule_two_waiters
           (mkConfig (mkQueue [Nil] true [0; 1])
              [Running (InDequeue DeqParked); Running (InDequeue DeqParked);
               Running (InEnqueue Nil EnqSignal)]) [] eq_refl).
  reflexivity.
Defined.

Lemma some_goroutine_can_run_witness :
  let cfg := mkConfig (mkQueue [Nil] true [0; 1])
               [Running (InDequeue DeqParked); Running (InDequeue DeqParked);
                Running (InEnqueue Nil EnqSignal)] in
  run (init 3) [] schedule_two_waiters = Some (cfg, []) /\
  exists u cfg' evs, exec cfg (Step u) = Some (cfg', evs).
Proof.
  intros cfg. split; [reflexivity|].
  apply (some_goroutine_can_run 3 schedule_two_waiters cfg [] 2
           (InEnqueue Nil EnqSignal)); reflexivity.
Defined.

(** Inside Size, with one value stored, the number about to be returned
    is 1. *)
Lemma reads_stay_accurate_witness :
  run (init 1) [] schedule_size_read =
    Some (mkConfig (mkQueue [Int 5] true []) [Running (InSize (SizeReturn 1))],
          [(0, EvEnqueue (Int 5))]) /\
  1%Z = Z.of_nat (length [Int 5]).
Proof.
  split; [reflexivity|].
  pose proof (reads_stay_accurate 1 schedule_size_read
                (mkConfig (mkQueue [Int 5] true []) [Running (InSize (SizeReturn 1))])
                [(0, EvEnqueue (Int 5))] 0 eq_refl) as H.
  simpl in H. destruct H as (H & _). apply H. reflexivity.
Defined.




(** A consumer alone on a new queue: it waits, and nothing is returned. *)
Lemma Dequeue_never_returns_without_Enqueue_witness :
  run (init 1) [] [Invoke 0 CallDequeue; Step 0; Step 0; Step 0] =
    Some (mkConfig (mkQueue (V := any) [] false [0])
            [Running (InDequeue DeqParked)], []) /\
  dequeued (V := any) [] = [] /\ dequeues (V := any) [] = 0.
Proof.
  split; [reflexivity|].
  apply (Dequeue_never_returns_without_Enqueue 1
           [Invoke 0 CallDequeue; Step 0; Step 0; Step 0]
           (mkConfig (mkQueue (V := any) [] false [0])
              [Running (InDequeue DeqParked)]) [] eq_refl).
  intros [|u]; reflexivity.
Defined.

Lemma main_consumer_receives_in_order_witness :
  run (init 2) [] schedule_main =
    Some (mkConfig (mkQueue [Int 2] false []) [Idle; Idle],
          [(0, EvEnqueue (Int 0)); (0, EvEnqueue (Int 1));
           (1, EvDequeue (Int 0) true); (1, EvDequeue (Int 1) true);
           (0, EvEnqueue (Int 2))]) /\
  [Int 0; Int 1] `prefix_of` ((fun i => Int (Z.of_nat i)) <$> seq 0 10).
Proof.
  split; [reflexivity|].
  apply (main_consumer_receives_in_order 2 schedule_main
           (mkConfig (mkQueue [Int 2] false []) [Idle; Idle])
           [(0, EvEnqueue (Int 0)); (0, EvEnqueue (Int 1));
            (1, EvDequeue (Int 0) true); (1, EvDequeue (Int 1) true);
            (0, EvEnqueue (Int 2))] eq_refl).
  intros [|[|u]]; simpl.
  - exists (skipn 3 producer). reflexivity.
  - exists (skipn 2 consumer). reflexivity.
  - exists []. reflexivity.
Defined.

(** * The sequential tests *)

Lemma for_range_enqueue count : forall i xs errs,
  for_range i count enqueue_int (mkConfig (mkQueue xs false []) [Idle], errs) =
  Some (mkConfig (mkQueue (xs ++ ((fun j => Int (Z.of_nat j)) <$> seq i count))
                          false []) [Idle], errs).
Proof.
  induction count as [|count IH]; intros i xs errs; cbn [for_range seq fmap list_fmap].
  - now rewrite app_nil_r.
  - unfold enqueue_int at 1. cbn [fst snd].
    rewrite do_call_Enqueue by reflexivity. cbn [tail].
    rewrite IH, <- app_assoc. reflexivity.
Qed.

Lemma for_range_dequeue_expect count : forall i ys errs,
  for_range i count dequeue_expect
    (mkConfig (mkQueue (((fun j => Int (Z.of_nat j)) <$> seq i count) ++ ys)
                       false []) [Idle], errs) =
  Some (mkConfig (mkQueue ys false []) [Idle], errs).
Proof.
  induction count as [|count IH]; intros i ys errs;
    cbn [for_range seq fmap list_fmap app]; [reflexivity|].
  unfold dequeue_expect at 1. cbn [fst snd].
  rewrite do_call_Dequeue_cons by reflexivity. cbn [ne_int negb orb].
  rewrite Z.eqb_refl. cbn [negb]. apply IH.
Qed.

Lemma for_range_dequeue_drop count : forall i (xs ys : list any) errs,
  length xs = count ->
  for_range i count dequeue_drop
    (mkConfig (mkQueue (xs ++ ys) false []) [Idle], errs) =
  Some (mkConfig (mkQueue ys false []) [Idle], errs).
Proof.
  induction count as [|count IH]; intros i [|x xs] ys errs Hlen;
    simpl in Hlen; try discriminate; cbn [for_range app]; [reflexivity|].
  unfold dequeue_drop at 1. cbn [fst snd].
  rewrite do_call_Dequeue_cons by reflexivity. apply IH. congruence.
Qed.

(** X9. TestOrdering passes for every count: after Enqueue(0) .. Enqueue(count-1)
    on a new queue, the i-th Dequeue returns [(i, true)], so the test
    runs to its end and reports no failure. *)
Theorem TestOrdering_passes count : TestOrdering count = Some [].
Proof.
  unfold TestOrdering, init, NewThreadSafeQueue. cbn [replicate].
  rewrite for_range_enqueue. cbn [app].
  rewrite <- (app_nil_r (_ <$> seq 0 count)).
  now rewrite for_range_dequeue_expect.
Qed.

(** X10. TestEnqueueDequeueCount passes for every count: after count Enqueue
    calls on a new queue Size returns count, and after count Dequeue
    calls it returns 0; the test runs to its end and reports no failure. *)
Theorem TestEnqueueDequeueCount_passes count :
  TestEnqueueDequeueCount count = Some [].
Proof.
  unfold TestEnqueueDequeueCount, init, NewThreadSafeQueue. cbn [replicate].
  rewrite for_range_enqueue. cbn [app].
  unfold expect_size at 1. cbn [fst snd].
  rewrite do_call_Size by reflexivity.
  rewrite length_fmap, length_seq, Z.eqb_refl.
  rewrite <- (app_nil_r (_ <$> seq 0 count)).
  rewrite for_range_dequeue_drop by (now rewrite length_fmap, length_seq).
  unfold expect_size. cbn [fst snd].
  now rewrite do_call_Size by reflexivity.
Qed.

(** * A waiting Dequeue and the next Enqueue *)

Section Handoff.
Context {V : Type}.

(** X11. Dequeue on an empty queue waits for the next Enqueue and returns
    its value.  On an empty queue with the mutex free and nobody
    waiting, a Dequeue by goroutine [t] does not return: it ends up
    suspended among the waiters, with the mutex unlocked.  An Enqueue of
    any value by another goroutine then returns and wakes it, and when
    [t] runs again its Dequeue returns that value with [true], leaving
    the queue as it was at the start. *)
Theorem blocked_Dequeue_returns_next_Enqueue (cfg : config V) t u (item : V) :
  pool cfg !! t = Some Idle ->
  pool cfg !! u = Some Idle ->
  t <> u ->
  shared cfg = mkQueue [] false [] ->
  let waiting :=
    mkConfig (mkQueue [] false [t])
             (<[t := Running (InDequeue DeqParked)]> (pool cfg)) in
  let woken :=
    mkConfig (mkQueue [item] false [])
             (<[t := Running (InDequeue DeqParked)]> (pool cfg)) in
  do_call t CallDequeue cfg = Stuck waiting /\
  do_call u (CallEnqueue item) waiting = Done (EvEnqueue item) woken /\
  finish 8 t woken = Done (EvDequeue item true) cfg.
Proof.
  destruct cfg as [q p]; cbn [pool shared]. intros Ht Hu Hne Hq. subst q. cbv zeta.
  pose proof (lookup_lt_Some _ _ _ Ht) as Hlt.
  split; [|split].
  - now rewrite do_call_Dequeue_nil.
  - rewrite do_call_Enqueue; [reflexivity|].
    now rewrite list_lookup_insert_ne.
  - repeat (rewrite finish_at by assumption;
            cbn [thread_step lift Dequeue Lock Unlock Wait_notified inb existsb
                 negb mu queue cond length Nat.eqb]).
    now rewrite (list_insert_id _ _ _ Ht).
Qed.

End Handoff.

Lemma blocked_Dequeue_returns_next_Enqueue_witness :
  do_call 0 CallDequeue (init (V := any) 2) =
    Stuck (mkConfig (mkQueue [] false [0]) [Running (InDequeue DeqParked); Idle]) /\
  do_call 1 (CallEnqueue (Int 42))
    (mkConfig (mkQueue [] false [0]) [Running (InDequeue DeqParked); Idle]) =
    Done (EvEnqueue (Int 42))
         (mkConfig (mkQueue [Int 42] false []) [Running (InDequeue DeqParked); Idle]) /\
  finish 8 0 (mkConfig (mkQueue [Int 42] false []) [Running (InDequeue DeqParked); Idle]) =
    Done (EvDequeue (Int 42) true) (init 2).
Proof.
  apply (blocked_Dequeue_returns_next_Enqueue (init 2) 0 1 (Int 42));
    [reflexivity | reflexivity | lia | reflexivity].
Defined.
